(** * Tic Tac Toe: rules evaluator, minimax engine and game controller

    A shallow embedding of [src/tic_tac_toe_frontend/src/App.js]:
    [calculateWinner], [getAvailableMoves], [minimax] and the state
    transitions of the [App] component, followed by the properties of the
    specification that concern them.

    Modelling conventions.
    - A JavaScript board is an array whose cells hold [null], ['X'] or ['O']:
      here a [list (option Mark)].  Reading past the end of an array yields
      [undefined], which is falsy like [null]; [get] returns [None] there.
    - Scores and depths are JavaScript numbers holding integers: here [Z].
      [-Infinity] and [Infinity] are the two extra points of [ext].
    - [minimax] is recursive on boards; the embedding recurses on a fuel
      counter and returns [None] when the counter runs out.  The top-level
      [minimax] supplies one more unit of fuel than there are empty cells,
      and [minimax_fuel_enough] shows that this is always sufficient. *)

From Stdlib Require Import String.
From Stdlib Require Import List ZArith Lia Bool Arith PeanoNat Sorted.
From Stdlib Require Import DecimalString.
Import ListNotations.

(** ** Data model *)

Inductive Mark : Type := X | O.

Definition cell : Type := option Mark.

Definition board : Type := list cell.

Definition Mark_eqb (a b : Mark) : bool :=
  match a, b with
  | X, X | O, O => true
  | _, _ => false
  end.

(** [a === b] on cell values. *)
Definition cell_eqb (a b : cell) : bool :=
  match a, b with
  | Some m, Some n => Mark_eqb m n
  | None, None => true
  | _, _ => false
  end.

(** Truthiness of a cell value: a mark is truthy, [null]/[undefined] is not. *)
Definition truthy (c : cell) : bool :=
  match c with
  | Some _ => true
  | None => false
  end.

(** [squares[i]]. *)
Definition get (squares : board) (i : nat) : cell := nth i squares None.

(** [squares[i] = v] on a copy of the array: inside the array the cell is
    replaced; past its end JavaScript extends the array, the cells in
    between being holes (read as [undefined]). *)
Fixpoint assign (squares : board) (i : nat) (v : cell) : board :=
  match squares, i with
  | [], 0 => [v]
  | [], S i' => None :: assign [] i' v
  | _ :: rest, 0 => v :: rest
  | c :: rest, S i' => c :: assign rest i' v
  end.

(** [Array(9).fill(null)]. *)
Definition emptyBoard : board := repeat None 9.

(** ** Rules evaluator *)

Definition lines : list (nat * nat * nat) :=
  [ (0, 1, 2); (3, 4, 5); (6, 7, 8);      (* rows *)
    (0, 3, 6); (1, 4, 7); (2, 5, 8);      (* cols *)
    (0, 4, 8); (2, 4, 6) ]%nat.           (* diags *)

(** The condition of the [if] in the loop of [calculateWinner]. *)
Definition lineWon (squares : board) (l : nat * nat * nat) : bool :=
  let '(a, b, c) := l in
  truthy (get squares a)
  && cell_eqb (get squares a) (get squares b)
  && cell_eqb (get squares b) (get squares c).

(** The [for ... of] loop of [calculateWinner] over a table of lines. *)
Fixpoint scanLines (squares : board) (ls : list (nat * nat * nat)) : cell :=
  match ls with
  | [] => None
  | l :: rest =>
      if lineWon squares l then get squares (fst (fst l))
      else scanLines squares rest
  end.

Definition calculateWinner (squares : board) : cell :=
  scanLines squares lines.

Definition getAvailableMoves (squares : board) : list nat :=
  filter (fun i => negb (truthy (get squares i))) (seq 0 (List.length squares)).

(** ** Minimax *)

(** What [minimax] returns: [{ score }] at a terminal board,
    [{ index, score }] otherwise. *)
Record SearchResult : Type := mkResult { index : option nat; score : Z }.

(** Numbers the loops of [minimax] compare scores with. *)
Inductive ext : Type := NegInf | Fin (z : Z) | PosInf.

(** [s > b]. *)
Definition gt_ext (s : Z) (b : ext) : bool :=
  match b with
  | NegInf => true
  | Fin z => (z <? s)%Z
  | PosInf => false
  end.

(** [s < b]. *)
Definition lt_ext (s : Z) (b : ext) : bool :=
  match b with
  | NegInf => false
  | Fin z => (s <? z)%Z
  | PosInf => true
  end.

(** The maximizing loop: [bestScore = -Infinity; bestMove = moves[0]]. *)
Fixpoint maximize (moves : list SearchResult) (bestScore : ext)
    (bestMove : SearchResult) : SearchResult :=
  match moves with
  | [] => bestMove
  | m :: rest =>
      if gt_ext (score m) bestScore then maximize rest (Fin (score m)) m
      else maximize rest bestScore bestMove
  end.

(** The minimizing loop: [bestScore = Infinity; bestMove = moves[0]]. *)
Fixpoint minimize (moves : list SearchResult) (bestScore : ext)
    (bestMove : SearchResult) : SearchResult :=
  match moves with
  | [] => bestMove
  | m :: rest =>
      if lt_ext (score m) bestScore then minimize rest (Fin (score m)) m
      else minimize rest bestScore bestMove
  end.

(** Collects the results of a loop whose body may run out of fuel. *)
Fixpoint collect {A : Type} (rs : list (option A)) : option (list A) :=
  match rs with
  | [] => Some []
  | None :: _ => None
  | Some r :: rest =>
      match collect rest with
      | Some rs' => Some (r :: rs')
      | None => None
      end
  end.

(** [currentPlayer === aiPlayer ? humanPlayer : aiPlayer]. *)
Definition nextPlayer (currentPlayer aiPlayer humanPlayer : Mark) : Mark :=
  if Mark_eqb currentPlayer aiPlayer then humanPlayer else aiPlayer.

(** The choice made after the exploration loop. *)
Definition select (currentPlayer aiPlayer : Mark) (moves : list SearchResult)
    : SearchResult :=
  let first := hd (mkResult None 0) moves in
  if Mark_eqb currentPlayer aiPlayer then maximize moves NegInf first
  else minimize moves PosInf first.

Fixpoint minimax_fuel (fuel : nat) (squares : board)
    (currentPlayer aiPlayer humanPlayer : Mark) (depth : Z)
    : option SearchResult :=
  match fuel with
  | 0 => None
  | S fuel' =>
      let winner := calculateWinner squares in
      if cell_eqb winner (Some aiPlayer) then Some (mkResult None (10 - depth))
      else if cell_eqb winner (Some humanPlayer)
      then Some (mkResult None (depth - 10))
      else
        let avail := getAvailableMoves squares in
        match avail with
        | [] => Some (mkResult None 0)
        | _ :: _ =>
            match
              collect
                (map (fun idx =>
                        match
                          minimax_fuel fuel' (assign squares idx (Some currentPlayer))
                            (nextPlayer currentPlayer aiPlayer humanPlayer)
                            aiPlayer humanPlayer (depth + 1)
                        with
                        | Some result => Some (mkResult (Some idx) (score result))
                        | None => None
                        end)
                     avail)
            with
            | Some moves => Some (select currentPlayer aiPlayer moves)
            | None => None
            end
        end
  end.

(** [minimax(squares, currentPlayer, aiPlayer, humanPlayer, depth)]. *)
Definition minimax (squares : board) (currentPlayer aiPlayer humanPlayer : Mark)
    (depth : Z) : option SearchResult :=
  minimax_fuel (S (length (getAvailableMoves squares))) squares
    currentPlayer aiPlayer humanPlayer depth.

(** The two lines of the AI effect that obtain the engine's move:
    [best = minimax(squares, aiPlayer, aiPlayer, humanPlayer)] followed by
    [best?.index]. *)
Definition chooseMove (squares : board) (aiMark humanMark : Mark) : option nat :=
  match minimax squares aiMark aiMark humanMark 0 with
  | Some best => index best
  | None => None
  end.

(** The exploration loop of [minimax] (the [for (const idx of avail)] that
    fills [moves]), with every recursive call given its own fuel. *)
Definition exploreMoves (squares : board)
    (currentPlayer aiPlayer humanPlayer : Mark) (depth : Z)
    : list (option SearchResult) :=
  map (fun idx =>
         match
           minimax (assign squares idx (Some currentPlayer))
             (nextPlayer currentPlayer aiPlayer humanPlayer)
             aiPlayer humanPlayer (depth + 1)
         with
         | Some result => Some (mkResult (Some idx) (score result))
         | None => None
         end)
      (getAvailableMoves squares).

(** ** Notions used to state the properties *)

Definition other (p : Mark) : Mark :=
  match p with
  | X => O
  | O => X
  end.

(** Number of cells holding a mark. *)
Definition occupied (squares : board) : nat :=
  List.length (filter truthy squares).

(** All three cells of line [l] hold the mark [m]. *)
Definition lineHolds (squares : board) (l : nat * nat * nat) (m : Mark) : Prop :=
  get squares (fst (fst l)) = Some m
  /\ get squares (snd (fst l)) = Some m
  /\ get squares (snd l) = Some m.

(** The lines of the 3x3 grid stored row by row: cell [3 * r + c] is at row
    [r], column [c]. *)
Definition rowLines : list (nat * nat * nat) :=
  map (fun r => (3 * r, 3 * r + 1, 3 * r + 2)) [0; 1; 2].

Definition colLines : list (nat * nat * nat) :=
  map (fun c => (c, c + 3, c + 6)) [0; 1; 2].

Definition diagLines : list (nat * nat * nat) :=
  [ (3 * 0 + 0, 3 * 1 + 1, 3 * 2 + 2); (3 * 0 + 2, 3 * 1 + 1, 3 * 2 + 0) ].

(** [r] is the entry of [moves] at position [k], no entry is better than it
    and every earlier entry is strictly worse; [better a b] reads
    "score [a] is strictly better than score [b]". *)
Definition firstBest (better : Z -> Z -> Prop) (moves : list SearchResult)
    (k : nat) (r : SearchResult) : Prop :=
  nth_error moves k = Some r
  /\ (forall j m, nth_error moves j = Some m -> ~ better (score m) (score r))
  /\ (forall j m, j < k -> nth_error moves j = Some m -> better (score r) (score m)).

(** The entries of [moves] are the legal moves, in order, each with the
    score returned by the recursive call on the board after the move. *)
Definition explored (squares : board)
    (currentPlayer aiPlayer humanPlayer : Mark) (depth : Z)
    (moves : list SearchResult) : Prop :=
  Forall2
    (fun idx m =>
       index m = Some idx
       /\ exists result,
            minimax (assign squares idx (Some currentPlayer))
              (nextPlayer currentPlayer aiPlayer humanPlayer)
              aiPlayer humanPlayer (depth + 1)
            = Some result
            /\ score m = score result)
    (getAvailableMoves squares) moves.

(** The game is over on [squares]: a line is complete or no cell is empty
    (the [winner] and [isDraw] values of the controller). *)
Definition isOver (squares : board) : bool :=
  truthy (calculateWinner squares)
  || (List.length (getAvailableMoves squares) =? 0).

(** *** Play-outs *)

(** Who chooses the moves of a side: the engine, or anybody (any legal move). *)
Inductive controller : Type := Engine | Free.

Definition controllerOf (cx co : controller) (p : Mark) : controller :=
  match p with
  | X => cx
  | O => co
  end.

(** [c'] allows every move that [c] allows. *)
Definition allows (c' c : controller) : Prop := c' = Free \/ c' = c.

(** One move of side [p] on [b] under controller [c]. *)
Inductive move (c : controller) (b : board) (p : Mark) : board -> Prop :=
| move_engine : forall i,
    c = Engine ->
    chooseMove b p (other p) = Some i ->
    move c b p (assign b i (Some p))
| move_free : forall i,
    c = Free ->
    In i (getAvailableMoves b) ->
    move c b p (assign b i (Some p)).

(** [playout cx co b p final]: a game played from [b] with [p] to move, the
    sides alternating, that stops at [final], the first board on which the
    game is over. *)
Inductive playout (cx co : controller) : board -> Mark -> board -> Prop :=
| playout_over : forall b p,
    isOver b = true ->
    playout cx co b p b
| playout_move : forall b p b' final,
    isOver b = false ->
    move (controllerOf cx co p) b p b' ->
    playout cx co b' (other p) final ->
    playout cx co b p final.

(** Explores every play-out from [b] and checks that none of them stops on a
    board won by the opponent of [e], and that none gets stuck. *)
Fixpoint neverLoses (fuel : nat) (cx co : controller) (e : Mark)
    (b : board) (p : Mark) : bool :=
  match fuel with
  | 0 => false
  | S fuel' =>
      if isOver b then negb (cell_eqb (calculateWinner b) (Some (other e)))
      else
        match controllerOf cx co p with
        | Engine =>
            match chooseMove b p (other p) with
            | Some i => neverLoses fuel' cx co e (assign b i (Some p)) (other p)
            | None => false
            end
        | Free =>
            forallb (fun i => neverLoses fuel' cx co e (assign b i (Some p)) (other p))
                    (getAvailableMoves b)
        end
  end.

(** *** Forced losses *)

(** [lossForcedWithin me n b p]: on [b] with [p] to move, the opponent of [me]
    completes a line after at most [n] further plies whatever [me] plays
    ([me] may choose any legal move, the opponent chooses its best one). *)
Fixpoint lossForcedWithin (me : Mark) (n : nat) (b : board) (p : Mark) : bool :=
  if cell_eqb (calculateWinner b) (Some (other me)) then true
  else if truthy (calculateWinner b) then false
  else
    match n with
    | 0 => false
    | S n' =>
        let avail := getAvailableMoves b in
        if Mark_eqb p me then
          negb (List.length avail =? 0)
          && forallb (fun i => lossForcedWithin me n' (assign b i (Some me)) (other me))
                     avail
        else
          existsb (fun i => lossForcedWithin me n' (assign b i (Some (other me))) me)
                  avail
    end.

(** Under optimal play by both sides (the opponent of [me] winning as fast
    as it can, [me] delaying as long as it can) [me] loses after exactly [n]
    further plies. *)
Definition pliesToLoss (me : Mark) (b : board) (p : Mark) (n : nat) : Prop :=
  lossForcedWithin me n b p = true
  /\ forall k, k < n -> lossForcedWithin me k b p = false.

(** ** Game controller: the state of the [App] component *)

Module App.

Inductive Mode : Type := AI | HUMAN.

Record Scores : Type := mkScores { scoreX : nat; scoreO : nat; draws : nat }.

Record State : Type := mkState {
  squares : board;
  xIsNext : bool;
  mode : Mode;
  scores : Scores;
  gameOver : bool;
  statusBanner : String.string
}.

(** The values of the [useState] initialisers. *)
Definition init : State :=
  mkState emptyBoard true AI (mkScores 0 0 0) false String.EmptyString.

Definition aiPlayer : Mark := O.
Definition humanPlayer : Mark := X.

Definition currentPlayer (st : State) : Mark :=
  if xIsNext st then X else O.

Definition winner (st : State) : cell := calculateWinner (squares st).

Definition isDraw (st : State) : bool :=
  negb (truthy (winner st))
  && (List.length (getAvailableMoves (squares st)) =? 0).

Definition markName (m : Mark) : String.string :=
  match m with
  | X => "X"%string
  | O => "O"%string
  end.

Definition Mode_eqb (a b : Mode) : bool :=
  match a, b with
  | AI, AI | HUMAN, HUMAN => true
  | _, _ => false
  end.

(** [{ ...prev, [winner]: prev[winner] + 1 }]. *)
Definition bump (m : Mark) (s : Scores) : Scores :=
  match m with
  | X => mkScores (scoreX s + 1) (scoreO s) (draws s)
  | O => mkScores (scoreX s) (scoreO s + 1) (draws s)
  end.

(** The effect that updates [gameOver], the banner and the scores. *)
Definition statusEffect (st : State) : State :=
  match winner st with
  | Some w =>
      mkState (squares st) (xIsNext st) (mode st) (bump w (scores st)) true
        (String.append (markName w) " wins!"%string)
  | None =>
      if isDraw st then
        mkState (squares st) (xIsNext st) (mode st)
          (mkScores (scoreX (scores st)) (scoreO (scores st)) (draws (scores st) + 1))
          true "It's a draw!"%string
      else
        mkState (squares st) (xIsNext st) (mode st) (scores st) false
          (String.append (markName (currentPlayer st)) "'s turn"%string)
  end.

(** The AI move effect, at the moment its timer fires: the callback reads
    the [squares] of the render that scheduled it, and React cancels the
    timer (the effect's cleanup) whenever [squares] changes, so these are the
    current ones. *)
Definition aiMove (st : State) : State :=
  if Mode_eqb (mode st) AI && negb (gameOver st) && negb (xIsNext st) then
    match chooseMove (squares st) aiPlayer humanPlayer with
    | Some aiIndex =>
        if negb (truthy (get (squares st) aiIndex)) then
          mkState (assign (squares st) aiIndex (Some aiPlayer)) true (mode st)
            (scores st) (gameOver st) (statusBanner st)
        else st
    | None => st
    end
  else st.

Definition handleSquareClick (index : nat) (st : State) : State :=
  if gameOver st || truthy (get (squares st) index)
     || (Mode_eqb (mode st) AI && negb (xIsNext st))
  then st
  else
    mkState (assign (squares st) index (Some (currentPlayer st)))
      (negb (xIsNext st)) (mode st) (scores st) (gameOver st) (statusBanner st).

Definition startNewRound (st : State) : State :=
  mkState emptyBoard true (mode st) (scores st) false "X's turn"%string.

Definition resetGame (st : State) : State :=
  mkState emptyBoard true AI (mkScores 0 0 0) false "X's turn"%string.

(** [setMode(newMode); startNewRound();]. *)
Definition changeMode (newMode : Mode) (st : State) : State :=
  startNewRound
    (mkState (squares st) (xIsNext st) newMode (scores st) (gameOver st)
       (statusBanner st)).

(** What can happen to the component. *)
Inductive Event : Type :=
| Click (index : nat)
| AiTimer
| StatusEffect
| NewRound
| Reset
| ChangeMode (newMode : Mode).

Definition step (e : Event) (st : State) : State :=
  match e with
  | Click index => handleSquareClick index st
  | AiTimer => aiMove st
  | StatusEffect => statusEffect st
  | NewRound => startNewRound st
  | Reset => resetGame st
  | ChangeMode newMode => changeMode newMode st
  end.

(** The events that run [startNewRound] or [resetGame]. *)
Definition resetsBoard (e : Event) : bool :=
  match e with
  | NewRound | Reset | ChangeMode _ => true
  | _ => false
  end.

Fixpoint run (es : list Event) (st : State) : State :=
  match es with
  | [] => st
  | e :: rest => run rest (step e st)
  end.

End App.

(** ** The board component ([components/Board.jsx]) *)

Module BoardView.

(** What a [Square] element amounts to: the text it shows, its class, its
    label, and the index its [onClick] passes to [onSquareClick]. *)
Record Square : Type := mkSquare {
  value : cell;
  className : string;
  ariaLabel : string;
  onClick : nat
}.

(** The text of a cell value: the mark, or nothing. *)
Definition text (v : cell) : string :=
  match v with
  | Some m => App.markName m
  | None => EmptyString
  end.

(** [<Square value={value} onClick={onClick} index={index} />]. *)
Definition SquareElement (v : cell) (click : nat) (index : nat) : Square :=
  mkSquare v
    (String.append "square "%string
       (if truthy v then "filled"%string else EmptyString))
    (String.append "Square "%string
       (String.append (NilEmpty.string_of_uint (Nat.to_uint (index + 1)))
          (String.append ", "%string
             (if truthy v then text v else "empty"%string))))
    click.

(** [renderSquare(i)]. *)
Definition renderSquare (squares : board) (i : nat) : Square :=
  SquareElement (get squares i) i i.

(** The three [board-row] elements of [Board]. *)
Definition render (squares : board) : list (list Square) :=
  [ [renderSquare squares 0; renderSquare squares 1; renderSquare squares 2];
    [renderSquare squares 3; renderSquare squares 4; renderSquare squares 5];
    [renderSquare squares 6; renderSquare squares 7; renderSquare squares 8] ].

(** The square drawn at row [r], column [c]. *)
Definition at_ (grid : list (list Square)) (r c : nat) : option Square :=
  match nth_error grid r with
  | Some row => nth_error row c
  | None => None
  end.

(** The click indices of three positions of the grid. *)
Definition triple (grid : list (list Square)) (p1 p2 p3 : nat * nat)
    : option (nat * nat * nat) :=
  match at_ grid (fst p1) (snd p1), at_ grid (fst p2) (snd p2),
        at_ grid (fst p3) (snd p3) with
  | Some a, Some b, Some c => Some (onClick a, onClick b, onClick c)
  | _, _, _ => None
  end.

(** The rows, the columns and the two diagonals of the drawn grid, as
    triples of click indices. *)
Definition drawnLines (grid : list (list Square)) : list (option (nat * nat * nat)) :=
  map (fun r => triple grid (r, 0) (r, 1) (r, 2)) [0; 1; 2]
  ++ map (fun c => triple grid (0, c) (1, c) (2, c)) [0; 1; 2]
  ++ [ triple grid (0, 0) (1, 1) (2, 2); triple grid (0, 2) (1, 1) (2, 0) ].

End BoardView.

(** ** Further notions *)

(** Number of cells holding the mark [m]. *)
Definition countMark (m : Mark) (squares : board) : nat :=
  List.length (filter (fun c => cell_eqb c (Some m)) squares).

(** [{ index, score }] with the score negated. *)
Definition negate (r : SearchResult) : SearchResult :=
  mkResult (index r) (- score r).

Definition negate_ext (b : ext) : ext :=
  match b with
  | NegInf => PosInf
  | Fin z => Fin (- z)
  | PosInf => NegInf
  end.

(** [reached cx co b0 p0 b p]: some game played from [b0] with [p0] to move
    has arrived at [b] with [p] to move. *)
Inductive reached (cx co : controller) (b0 : board) (p0 : Mark)
    : board -> Mark -> Prop :=
| reached_start : reached cx co b0 p0 b0 p0
| reached_move : forall b p b',
    reached cx co b0 p0 b p ->
    isOver b = false ->
    move (controllerOf cx co p) b p b' ->
    reached cx co b0 p0 b' (other p).

(** Events the page can produce: a click carries the index of one of the
    nine squares that [Board] draws. *)
Definition fromPage (e : App.Event) : bool :=
  match e with
  | App.Click index => index <? 9
  | _ => true
  end.

(** Events that leave the game in AI mode. *)
Definition keepsAI (e : App.Event) : bool :=
  match e with
  | App.ChangeMode App.HUMAN => false
  | _ => true
  end.

(** The events [es], the status effect running after each of them (React
    runs the effects of a render before it handles the next event). *)
Definition withEffects (es : list App.Event) : list App.Event :=
  flat_map (fun e => [e; App.StatusEffect]) es.

(** The marks on the board and the turn agree. *)
Definition turnAgrees (st : App.State) : Prop :=
  countMark X (App.squares st)
  = countMark O (App.squares st) + (if App.xIsNext st then 0 else 1).

(** A round against the computer is under way in [st]: the mode is AI, the
    [gameOver] flag is up to date, and the board has been arrived at from
    the empty board by moves of X and engine moves of O, the sides
    alternating from X. *)
Definition aiRound (st : App.State) : Prop :=
  App.mode st = App.AI
  /\ App.gameOver st = isOver (App.squares st)
  /\ reached Free Engine emptyBoard X (App.squares st) (App.currentPlayer st).

(** * Properties *)

(** ** Cells, marks and assignment *)

Lemma Mark_eqb_eq (a b : Mark) : Mark_eqb a b = true <-> a = b.
Proof. destruct a, b; simpl; split; congruence. Qed.

Lemma Mark_eqb_refl (a : Mark) : Mark_eqb a a = true.
Proof. destruct a; reflexivity. Qed.

Lemma Mark_eqb_neq (a b : Mark) : Mark_eqb a b = false <-> a <> b.
Proof. destruct a, b; simpl; split; congruence. Qed.

Lemma cell_eqb_eq (a b : cell) : cell_eqb a b = true <-> a = b.
Proof.
  destruct a as [m|], b as [n|]; simpl; try (split; congruence).
  rewrite Mark_eqb_eq. split; congruence.
Qed.

Lemma cell_eqb_neq (a b : cell) : cell_eqb a b = false <-> a <> b.
Proof.
  rewrite <- cell_eqb_eq. destruct (cell_eqb a b); split; congruence.
Qed.

Lemma other_neq (p : Mark) : other p <> p.
Proof. destruct p; discriminate. Qed.

Lemma other_involutive (p : Mark) : other (other p) = p.
Proof. destruct p; reflexivity. Qed.

Lemma mark_cases (me p : Mark) : p = me \/ p = other me.
Proof. destruct me, p; auto. Qed.

Lemma truthy_false (c : cell) : truthy c = false <-> c = None.
Proof. destruct c; simpl; split; congruence. Qed.

Lemma get_assign_same (squares : board) (i : nat) (v : cell) :
  get (assign squares i v) i = v.
Proof.
  unfold get. revert squares.
  induction i as [|i IH]; intros [|c rest]; simpl; auto.
Qed.

Lemma get_assign_other (squares : board) (i j : nat) (v : cell) :
  i <> j -> get (assign squares i v) j = get squares j.
Proof.
  unfold get. revert squares j.
  induction i as [|i IH]; intros [|c rest] [|j] Hij; simpl; try congruence.
  - destruct j; reflexivity.
  - rewrite IH by congruence. destruct j; reflexivity.
  - apply IH. congruence.
Qed.

Lemma length_assign (squares : board) (i : nat) (v : cell) :
  i < List.length squares -> List.length (assign squares i v) = List.length squares.
Proof.
  revert squares.
  induction i as [|i IH]; intros [|c rest] Hi; simpl in *; try lia.
  rewrite IH; lia.
Qed.

(** ** The rules evaluator *)

Lemma lineWon_holds (squares : board) (l : nat * nat * nat) :
  lineWon squares l = true <->
  exists m, lineHolds squares l m.
Proof.
  destruct l as [[a b] c]. unfold lineWon, lineHolds. simpl.
  rewrite !andb_true_iff, !cell_eqb_eq. split.
  - intros [[Ha Hab] Hbc].
    destruct (get squares a) as [m|] eqn:Ea; [|discriminate].
    exists m. repeat split; congruence.
  - intros [m (Ha & Hb & Hc)]. rewrite Ha, Hb, Hc. auto.
Qed.

Lemma lineHolds_unique (squares : board) (l : nat * nat * nat) (m n : Mark) :
  lineHolds squares l m -> lineHolds squares l n -> m = n.
Proof. intros [H _] [H' _]. congruence. Qed.

(** The loop returns the mark of the first complete line of the table. *)
Lemma scanLines_first (squares : board) (ls : list (nat * nat * nat)) (m : Mark) :
  scanLines squares ls = Some m <->
  exists pre l post,
    ls = pre ++ l :: post
    /\ lineHolds squares l m
    /\ forall l' m', In l' pre -> ~ lineHolds squares l' m'.
Proof.
  induction ls as [|l ls IH]; simpl.
  - split; [discriminate|]. intros (pre & l & post & E & _).
    destruct pre; discriminate.
  - destruct (lineWon squares l) eqn:Hw.
    + apply lineWon_holds in Hw. destruct Hw as [n Hn]. split.
      * intros Hg. exists [], l, ls. simpl. split; [reflexivity|].
        split; [|tauto]. destruct Hn as [Hn1 Hn']. 
        assert (n = m) by congruence. subst. split; assumption.
      * intros (pre & l0 & post & E & Hl0 & Hpre).
        destruct pre as [|l1 pre]; simpl in E; injection E as E1 E2; subst.
        -- destruct Hl0 as [H0 _]. exact H0.
        -- exfalso. apply (Hpre l1 n); simpl; auto.
    + rewrite IH. split.
      * intros (pre & l0 & post & E & Hl0 & Hpre).
        exists (l :: pre), l0, post. simpl. split; [congruence|].
        split; [assumption|]. intros l' m' [<-|Hin] Hh.
        -- assert (lineWon squares l = true) by (apply lineWon_holds; eauto).
           congruence.
        -- exact (Hpre l' m' Hin Hh).
      * intros (pre & l0 & post & E & Hl0 & Hpre).
        destruct pre as [|l1 pre]; simpl in E; injection E as E1 E2; subst.
        -- assert (lineWon squares l0 = true) by (apply lineWon_holds; eauto).
           congruence.
        -- exists pre, l0, post. split; [reflexivity|]. split; [assumption|].
           intros l' m' Hin. apply Hpre. simpl. auto.
Qed.

Lemma scanLines_none (squares : board) (ls : list (nat * nat * nat)) :
  scanLines squares ls = None <->
  forall l m, In l ls -> ~ lineHolds squares l m.
Proof.
  induction ls as [|l ls IH]; simpl.
  - split; [intros _ l m []|reflexivity].
  - destruct (lineWon squares l) eqn:Hw.
    + apply lineWon_holds in Hw. destruct Hw as [n Hn]. split.
      * intros Hg. destruct Hn as [Hn _]. congruence.
      * intros H. exfalso. apply (H l n); auto.
    + rewrite IH. split.
      * intros H l' m [<-|Hin] Hh; [|exact (H l' m Hin Hh)].
        assert (lineWon squares l = true) by (apply lineWon_holds; eauto).
        congruence.
      * intros H l' m Hin. apply H. auto.
Qed.

Lemma calculateWinner_some (squares : board) (m : Mark) :
  calculateWinner squares = Some m ->
  exists l, In l lines /\ lineHolds squares l m.
Proof.
  unfold calculateWinner. rewrite scanLines_first.
  intros (pre & l & post & E & Hl & _). exists l. split; [|assumption].
  rewrite E. apply in_or_app. simpl. auto.
Qed.

Lemma calculateWinner_none (squares : board) :
  calculateWinner squares = None <->
  forall l m, In l lines -> ~ lineHolds squares l m.
Proof. apply scanLines_none. Qed.

(** C2. On every board [calculateWinner] returns a mark exactly when one of
    the 8 lines (3 rows, 3 columns, 2 diagonals) holds the same mark in its
    three cells, and [null] exactly when no line is complete.  The mark it
    returns is that of a complete line: the first complete one in the order
    rows, columns, diagonals; hence when the complete lines all hold one
    mark, that mark is returned. *)
Theorem calculateWinner_complete_line (squares : board) :
  lines = rowLines ++ colLines ++ diagLines
  /\ List.length lines = 8
  /\ (forall m, calculateWinner squares = Some m ->
        exists l, In l lines /\ lineHolds squares l m)
  /\ ((exists m, calculateWinner squares = Some m) <->
      (exists l m, In l lines /\ lineHolds squares l m))
  /\ (calculateWinner squares = None <->
      (forall l m, In l lines -> ~ lineHolds squares l m))
  /\ (forall m, calculateWinner squares = Some m <->
        exists pre l post,
          lines = pre ++ l :: post
          /\ lineHolds squares l m
          /\ forall l' m', In l' pre -> ~ lineHolds squares l' m')
  /\ (forall m l,
        In l lines -> lineHolds squares l m ->
        (forall l' m', In l' lines -> lineHolds squares l' m' -> m' = m) ->
        calculateWinner squares = Some m).
Proof.
  split; [reflexivity|]. split; [reflexivity|].
  split; [apply calculateWinner_some|].
  split; [|split; [apply calculateWinner_none
                   |split; [intro m; apply scanLines_first|]]].
  - split.
    + intros [m Hm]. destruct (calculateWinner_some _ _ Hm) as [l Hl].
      exists l, m. exact Hl.
    + intros (l & m & Hin & Hl).
      destruct (calculateWinner squares) as [m'|] eqn:E; [eauto|].
      exfalso. rewrite calculateWinner_none in E. exact (E l m Hin Hl).
  - intros m l Hin Hl Hall.
    destruct (calculateWinner squares) as [m'|] eqn:E.
    + destruct (calculateWinner_some _ _ E) as (l' & Hin' & Hl').
      f_equal. eauto.
    + exfalso. rewrite calculateWinner_none in E. exact (E l m Hin Hl).
Qed.

Lemma calculateWinner_complete_line_witness :
  let squares := [Some X; Some X; Some X; Some O; Some O; Some O; None; None; None] in
  calculateWinner squares = Some X
  /\ exists l, In l lines /\ lineHolds squares l X.
Proof.
  cbv zeta. split; [reflexivity|].
  destruct (calculateWinner_complete_line
              [Some X; Some X; Some X; Some O; Some O; Some O; None; None; None])
    as (_ & _ & H & _).
  apply H. reflexivity.
Defined.

(** ** Legal moves *)

Lemma getAvailableMoves_In (squares : board) (i : nat) :
  In i (getAvailableMoves squares) <->
  i < List.length squares /\ get squares i = None.
Proof.
  unfold getAvailableMoves. rewrite filter_In, in_seq, negb_true_iff, truthy_false.
  intuition lia.
Qed.

Lemma seq_ascending (a n : nat) : StronglySorted lt (seq a n).
Proof.
  revert a. induction n as [|n IH]; intros a; simpl; constructor.
  - apply IH.
  - apply Forall_forall. intros x Hx. apply in_seq in Hx. lia.
Qed.

Lemma filter_ascending (f : nat -> bool) (l : list nat) :
  StronglySorted lt l -> StronglySorted lt (filter f l).
Proof.
  induction 1 as [|x l Hs IH Hx]; simpl; [constructor|].
  destruct (f x); [|assumption].
  constructor; [assumption|].
  rewrite Forall_forall in *. intros y Hy. apply filter_In in Hy.
  apply Hx. tauto.
Qed.

Lemma getAvailableMoves_ascending (squares : board) :
  StronglySorted lt (getAvailableMoves squares).
Proof. apply filter_ascending, seq_ascending. Qed.

Lemma empty_count_from (l : board) (a : nat) :
  List.length (filter (fun i => negb (truthy (nth (i - a) l None)))
                      (seq a (List.length l)))
  + List.length (filter truthy l) = List.length l.
Proof.
  revert a. induction l as [|c l IH]; intros a; simpl; [reflexivity|].
  rewrite Nat.sub_diag.
  rewrite (filter_ext_in _ (fun i => negb (truthy (nth (i - S a) l None)))).
  - specialize (IH (S a)). destruct c; simpl; lia.
  - intros i Hi. apply in_seq in Hi.
    replace (i - a) with (S (i - S a)) by lia. reflexivity.
Qed.

Lemma getAvailableMoves_length (squares : board) :
  List.length (getAvailableMoves squares) + occupied squares
  = List.length squares.
Proof.
  unfold getAvailableMoves, occupied, get.
  etransitivity; [|exact (empty_count_from squares 0)].
  f_equal. f_equal. apply filter_ext. intros i. rewrite Nat.sub_0_r. reflexivity.
Qed.

(** C3. On a 9-cell board [getAvailableMoves] returns exactly the indices of
    the empty cells, in strictly ascending order; there are 9 minus the
    number of occupied cells of them, none is the index of an occupied
    cell, and the result is empty when the board is full. *)
Theorem getAvailableMoves_empty_cells (squares : board) :
  List.length squares = 9 ->
  (forall i, In i (getAvailableMoves squares) <-> i < 9 /\ get squares i = None)
  /\ StronglySorted lt (getAvailableMoves squares)
  /\ List.length (getAvailableMoves squares) = 9 - occupied squares
  /\ (forall i, In i (getAvailableMoves squares) ->
        truthy (get squares i) = false)
  /\ (occupied squares = 9 -> getAvailableMoves squares = []).
Proof.
  intros Hlen.
  pose proof (getAvailableMoves_length squares) as Hcount.
  rewrite Hlen in Hcount.
  split; [|split; [|split; [|split]]].
  - intros i. rewrite getAvailableMoves_In, Hlen. reflexivity.
  - apply getAvailableMoves_ascending.
  - lia.
  - intros i Hi. apply getAvailableMoves_In in Hi. apply truthy_false. tauto.
  - intros Hfull. apply length_zero_iff_nil. lia.
Qed.

Lemma getAvailableMoves_empty_cells_witness :
  let squares := [Some X; Some X; None; None; Some O; None; None; None; None] in
  List.length squares = 9
  /\ getAvailableMoves squares = [2; 3; 5; 6; 7; 8]
  /\ List.length (getAvailableMoves squares) = 9 - occupied squares.
Proof.
  split; [reflexivity|]. split; [reflexivity|].
  apply (getAvailableMoves_empty_cells
           [Some X; Some X; None; None; Some O; None; None; None; None]).
  reflexivity.
Defined.

(** ** Empty cells decrease along the search *)

Lemma occupied_assign (squares : board) (i : nat) (m : Mark) :
  i < List.length squares -> get squares i = None ->
  occupied (assign squares i (Some m)) = S (occupied squares).
Proof.
  unfold occupied, get. revert squares.
  induction i as [|i IH]; intros [|c rest] Hi Hg; simpl in *; try lia.
  - subst c. reflexivity.
  - destruct c; simpl; rewrite IH by (assumption || lia); reflexivity.
Qed.

(** Each recursive call of [minimax] receives a board with one empty cell
    less. *)
Lemma getAvailableMoves_assign (squares : board) (idx : nat) (m : Mark) :
  In idx (getAvailableMoves squares) ->
  S (List.length (getAvailableMoves (assign squares idx (Some m))))
  = List.length (getAvailableMoves squares).
Proof.
  intros Hin. apply getAvailableMoves_In in Hin. destruct Hin as [Hlt Hg].
  pose proof (getAvailableMoves_length squares).
  pose proof (getAvailableMoves_length (assign squares idx (Some m))) as H'.
  rewrite length_assign, (occupied_assign _ _ m Hlt Hg) in H' by assumption.
  lia.
Qed.

(** ** Fuel *)

Lemma collect_map {A B : Type} (g : A -> option B) (l : list A) (ys : list B) :
  collect (map g l) = Some ys <-> Forall2 (fun x y => g x = Some y) l ys.
Proof.
  revert ys. induction l as [|x l IH]; intros ys; simpl.
  - split.
    + intros E. injection E as <-. constructor.
    + intros H. inversion H. reflexivity.
  - destruct (g x) as [y|] eqn:Ex.
    + destruct (collect (map g l)) as [ys'|] eqn:Ec.
      * split.
        -- intros E. injection E as <-. constructor; [assumption|].
           apply IH. reflexivity.
        -- intros H. inversion H as [|x0 y0 l0 ys0 Hy Hrest]; subst.
           apply IH in Hrest. congruence.
      * split; [discriminate|].
        intros H. inversion H as [|x0 y0 l0 ys0 Hy Hrest]; subst.
        apply IH in Hrest. discriminate.
    + split; [discriminate|].
      intros H. inversion H; subst. congruence.
Qed.

Lemma Forall2_total {A B : Type} (R : A -> B -> Prop) (l : list A) :
  (forall x, In x l -> exists y, R x y) -> exists ys, Forall2 R l ys.
Proof.
  induction l as [|x l IH]; intros H.
  - exists []. constructor.
  - destruct (H x) as [y Hy]; [left; reflexivity|].
    destruct IH as [ys Hys]; [intros; apply H; right; assumption|].
    exists (y :: ys). constructor; assumption.
Qed.

Lemma Forall2_weaken_in {A B : Type} (R R' : A -> B -> Prop) (l : list A)
    (ys : list B) :
  (forall x y, In x l -> R x y -> R' x y) -> Forall2 R l ys -> Forall2 R' l ys.
Proof.
  intros H F. induction F as [|x y l ys Hxy F IH]; constructor.
  - apply H; [left; reflexivity|assumption].
  - apply IH. intros; apply H; [right|]; assumption.
Qed.

(** The body of [minimax], one level unfolded. *)
Lemma minimax_fuel_S (fuel : nat) (squares : board)
    (currentPlayer aiPlayer humanPlayer : Mark) (depth : Z) :
  minimax_fuel (S fuel) squares currentPlayer aiPlayer humanPlayer depth =
  if cell_eqb (calculateWinner squares) (Some aiPlayer)
  then Some (mkResult None (10 - depth))
  else if cell_eqb (calculateWinner squares) (Some humanPlayer)
  then Some (mkResult None (depth - 10))
  else
    match getAvailableMoves squares with
    | [] => Some (mkResult None 0)
    | _ :: _ =>
        match
          collect
            (map (fun idx =>
                    match
                      minimax_fuel fuel (assign squares idx (Some currentPlayer))
                        (nextPlayer currentPlayer aiPlayer humanPlayer)
                        aiPlayer humanPlayer (depth + 1)
                    with
                    | Some result => Some (mkResult (Some idx) (score result))
                    | None => None
                    end)
                 (getAvailableMoves squares))
        with
        | Some moves => Some (select currentPlayer aiPlayer moves)
        | None => None
        end
    end.
Proof. reflexivity. Qed.

(** With more fuel than empty cells the search returns a result. *)
Lemma minimax_fuel_total (fuel : nat) :
  forall (squares : board) (currentPlayer aiPlayer humanPlayer : Mark) (depth : Z),
    List.length (getAvailableMoves squares) < fuel ->
    exists r,
      minimax_fuel fuel squares currentPlayer aiPlayer humanPlayer depth = Some r.
Proof.
  induction fuel as [|fuel IH]; intros squares cur ai hu depth Hlt; [lia|].
  rewrite minimax_fuel_S.
  destruct (cell_eqb (calculateWinner squares) (Some ai)); [eauto|].
  destruct (cell_eqb (calculateWinner squares) (Some hu)); [eauto|].
  destruct (getAvailableMoves squares) as [|i0 rest] eqn:Ea; [eauto|].
  rewrite <- Ea in *.
  match goal with
  | |- context [collect (map ?g ?l)] =>
      destruct (@Forall2_total _ _ (fun x y => g x = Some y) l) as [ys Hys]
  end.
  - intros idx Hin.
    destruct (IH (assign squares idx (Some cur)) (nextPlayer cur ai hu) ai hu
                 (depth + 1)%Z) as [r Hr].
    + pose proof (getAvailableMoves_assign squares idx cur Hin). lia.
    + rewrite Hr. eauto.
  - apply collect_map in Hys. rewrite Hys. eauto.
Qed.

(** A result obtained with some fuel is obtained with any larger fuel. *)
Lemma minimax_fuel_mono (fuel : nat) :
  forall (fuel' : nat) (squares : board)
         (currentPlayer aiPlayer humanPlayer : Mark) (depth : Z) (r : SearchResult),
    fuel <= fuel' ->
    minimax_fuel fuel squares currentPlayer aiPlayer humanPlayer depth = Some r ->
    minimax_fuel fuel' squares currentPlayer aiPlayer humanPlayer depth = Some r.
Proof.
  induction fuel as [|fuel IH]; intros fuel' squares cur ai hu depth r Hle Hr;
    [discriminate|].
  destruct fuel' as [|fuel']; [lia|].
  rewrite minimax_fuel_S in *.
  destruct (cell_eqb (calculateWinner squares) (Some ai)); [assumption|].
  destruct (cell_eqb (calculateWinner squares) (Some hu)); [assumption|].
  destruct (getAvailableMoves squares) as [|i0 rest] eqn:Ea; [assumption|].
  rewrite <- Ea in *.
  match type of Hr with
  | context [collect (map ?g ?l)] =>
      destruct (collect (map g l)) as [moves|] eqn:Ec; [|discriminate]
  end.
  apply collect_map in Ec.
  match goal with
  | |- context [collect (map ?g ?l)] =>
      assert (Ec' : collect (map g l) = Some moves)
  end.
  { apply collect_map. revert Ec. apply Forall2_weaken_in.
    intros idx m _ Hm.
    destruct (minimax_fuel fuel (assign squares idx (Some cur))
                (nextPlayer cur ai hu) ai hu (depth + 1)%Z) as [res|] eqn:Er;
      [|discriminate].
    rewrite (IH fuel' _ _ _ _ _ res) by (assumption || lia). assumption. }
  rewrite Ec'. assumption.
Qed.

Lemma minimax_total (squares : board)
    (currentPlayer aiPlayer humanPlayer : Mark) (depth : Z) :
  exists r, minimax squares currentPlayer aiPlayer humanPlayer depth = Some r.
Proof. apply minimax_fuel_total. lia. Qed.

Lemma minimax_fuel_enough (fuel : nat) (squares : board)
    (currentPlayer aiPlayer humanPlayer : Mark) (depth : Z) :
  List.length (getAvailableMoves squares) < fuel ->
  minimax_fuel fuel squares currentPlayer aiPlayer humanPlayer depth
  = minimax squares currentPlayer aiPlayer humanPlayer depth.
Proof.
  intros Hlt.
  destruct (minimax_total squares currentPlayer aiPlayer humanPlayer depth)
    as [r Hr].
  rewrite Hr. revert Hr. apply minimax_fuel_mono. lia.
Qed.

(** [minimax] on a board that is not terminal: the exploration loop followed
    by the selection. *)
Lemma minimax_explore (squares : board)
    (currentPlayer aiPlayer humanPlayer : Mark) (depth : Z) :
  cell_eqb (calculateWinner squares) (Some aiPlayer) = false ->
  cell_eqb (calculateWinner squares) (Some humanPlayer) = false ->
  getAvailableMoves squares <> [] ->
  minimax squares currentPlayer aiPlayer humanPlayer depth =
  match collect (exploreMoves squares currentPlayer aiPlayer humanPlayer depth) with
  | Some moves => Some (select currentPlayer aiPlayer moves)
  | None => None
  end.
Proof.
  intros Hai Hhu Hne. unfold minimax. rewrite minimax_fuel_S, Hai, Hhu.
  destruct (getAvailableMoves squares) as [|i0 rest] eqn:Ea; [congruence|].
  rewrite <- Ea. unfold exploreMoves.
  erewrite map_ext_in; [reflexivity|].
  intros idx Hin. simpl. rewrite minimax_fuel_enough; [reflexivity|].
  pose proof (getAvailableMoves_assign squares idx currentPlayer Hin). lia.
Qed.

(** C9. [minimax] terminates on every board, for every choice of players and
    every starting depth: it returns a result, the same for every amount of
    fuel above the number of empty cells, and each recursive call receives
    a board with strictly fewer empty cells. *)
Theorem minimax_terminates (squares : board)
    (currentPlayer aiPlayer humanPlayer : Mark) (depth : Z) :
  (exists r, minimax squares currentPlayer aiPlayer humanPlayer depth = Some r)
  /\ (forall fuel,
        List.length (getAvailableMoves squares) < fuel ->
        minimax_fuel fuel squares currentPlayer aiPlayer humanPlayer depth
        = minimax squares currentPlayer aiPlayer humanPlayer depth)
  /\ (forall idx,
        In idx (getAvailableMoves squares) ->
        List.length (getAvailableMoves (assign squares idx (Some currentPlayer)))
        < List.length (getAvailableMoves squares)).
Proof.
  split; [apply minimax_total|]. split.
  - intros fuel. apply minimax_fuel_enough.
  - intros idx Hin.
    pose proof (getAvailableMoves_assign squares idx currentPlayer Hin). lia.
Qed.

Lemma minimax_terminates_witness :
  (exists r, minimax emptyBoard X O X 3 = Some r)
  /\ minimax_fuel 12 [Some X; None; Some O] O O X 0
     = minimax [Some X; None; Some O] O O X 0.
Proof.
  split.
  - apply (minimax_terminates emptyBoard X O X 3).
  - apply (minimax_terminates [Some X; None; Some O] O O X 0). simpl. lia.
Defined.

(** ** Terminal boards *)

Lemma minimax_won (squares : board)
    (currentPlayer aiPlayer humanPlayer : Mark) (depth : Z) :
  calculateWinner squares = Some aiPlayer ->
  minimax squares currentPlayer aiPlayer humanPlayer depth
  = Some (mkResult None (10 - depth)).
Proof.
  intros Hw. unfold minimax. rewrite minimax_fuel_S, Hw. simpl.
  rewrite Mark_eqb_refl. reflexivity.
Qed.

Lemma minimax_lost (squares : board)
    (currentPlayer aiPlayer humanPlayer : Mark) (depth : Z) :
  aiPlayer <> humanPlayer ->
  calculateWinner squares = Some humanPlayer ->
  minimax squares currentPlayer aiPlayer humanPlayer depth
  = Some (mkResult None (depth - 10)).
Proof.
  intros Hdiff Hw. unfold minimax. rewrite minimax_fuel_S, Hw. simpl.
  rewrite Mark_eqb_refl.
  destruct (Mark_eqb humanPlayer aiPlayer) eqn:E; [|reflexivity].
  apply Mark_eqb_eq in E. congruence.
Qed.

Lemma minimax_drawn (squares : board)
    (currentPlayer aiPlayer humanPlayer : Mark) (depth : Z) :
  calculateWinner squares = None ->
  getAvailableMoves squares = [] ->
  minimax squares currentPlayer aiPlayer humanPlayer depth
  = Some (mkResult None 0).
Proof.
  intros Hw Hfull. unfold minimax. rewrite minimax_fuel_S, Hw, Hfull.
  reflexivity.
Qed.

(** C4. At a terminal board [minimax] returns a result without a move index
    and with the score of the base case: [10 - depth] when the winner is the
    maximizing player, [depth - 10] when it is the minimizing player, and
    [0] when there is no winner and no empty cell; in the last case the
    engine's move is absent, and a result is returned all the same. *)
Theorem minimax_terminal (squares : board)
    (currentPlayer aiPlayer humanPlayer : Mark) (depth : Z) :
  aiPlayer <> humanPlayer ->
  (calculateWinner squares = Some aiPlayer ->
   minimax squares currentPlayer aiPlayer humanPlayer depth
   = Some (mkResult None (10 - depth)))
  /\ (calculateWinner squares = Some humanPlayer ->
      minimax squares currentPlayer aiPlayer humanPlayer depth
      = Some (mkResult None (depth - 10)))
  /\ (calculateWinner squares = None ->
      getAvailableMoves squares = [] ->
      minimax squares currentPlayer aiPlayer humanPlayer depth
      = Some (mkResult None 0)
      /\ chooseMove squares aiPlayer humanPlayer = None).
Proof.
  intros Hdiff. split; [|split].
  - apply minimax_won.
  - apply minimax_lost. assumption.
  - intros Hw Hfull. unfold chooseMove.
    rewrite !minimax_drawn by assumption. auto.
Qed.

Lemma minimax_terminal_witness :
  O <> X
  /\ minimax [Some X; Some X; Some X; Some O; Some O; None; None; None; None]
       O O X 5 = Some (mkResult None (5 - 10))
  /\ minimax [Some O; Some O; Some O; Some X; Some X; None; Some X; None; None]
       X O X 6 = Some (mkResult None (10 - 6))
  /\ minimax [Some X; Some O; Some X; Some X; Some O; Some O; Some O; Some X; Some X]
       O O X 9 = Some (mkResult None 0).
Proof.
  assert (Hd : O <> X) by discriminate.
  split; [exact Hd|]. split; [|split].
  - apply (minimax_terminal
             [Some X; Some X; Some X; Some O; Some O; None; None; None; None]
             O O X 5 Hd). reflexivity.
  - apply (minimax_terminal
             [Some O; Some O; Some O; Some X; Some X; None; Some X; None; None]
             X O X 6 Hd). reflexivity.
  - apply (minimax_terminal
             [Some X; Some O; Some X; Some X; Some O; Some O; Some O; Some X; Some X]
             O O X 9 Hd); reflexivity.
Defined.

(** ** Selection *)

Ltac split_best :=
  match goal with
  | |- context [if ?c then _ else _] => destruct c eqn:?Hcmp
  end.

(** The maximizing loop, once a first candidate has been recorded. *)
Lemma maximize_Fin (rest : list SearchResult) :
  forall best : SearchResult,
    let r := maximize rest (Fin (score best)) best in
    (r = best /\ forall m, In m rest -> (score m <= score best)%Z)
    \/ (exists k,
          nth_error rest k = Some r
          /\ (score best < score r)%Z
          /\ (forall m, In m rest -> (score m <= score r)%Z)
          /\ (forall j m, j < k -> nth_error rest j = Some m ->
                (score m < score r)%Z)).
Proof.
  induction rest as [|m rest IH]; intros best; simpl.
  - left. split; [reflexivity|intros m []].
  - split_best.
    + apply Z.ltb_lt in Hcmp. right.
      destruct (IH m) as [[Er Hall]|(k & Hk & Hlt & Hall & Hbefore)].
      * exists 0. rewrite Er. simpl. split; [reflexivity|].
        split; [assumption|]. split; [|intros; lia].
        intros m' [<-|Hin]; [lia|auto].
      * exists (S k). simpl. split; [assumption|]. split; [lia|]. split.
        -- intros m' [<-|Hin]; [lia|auto].
        -- intros [|j] m' Hj E; simpl in E.
           ++ injection E as <-. lia.
           ++ apply (Hbefore j); [lia|assumption].
    + apply Z.ltb_ge in Hcmp.
      destruct (IH best) as [[Er Hall]|(k & Hk & Hlt & Hall & Hbefore)].
      * left. split; [assumption|]. intros m' [<-|Hin]; [lia|auto].
      * right. exists (S k). simpl. split; [assumption|].
        split; [assumption|]. split.
        -- intros m' [<-|Hin]; [lia|auto].
        -- intros [|j] m' Hj E; simpl in E.
           ++ injection E as <-. lia.
           ++ apply (Hbefore j); [lia|assumption].
Qed.

(** The minimizing loop, once a first candidate has been recorded. *)
Lemma minimize_Fin (rest : list SearchResult) :
  forall best : SearchResult,
    let r := minimize rest (Fin (score best)) best in
    (r = best /\ forall m, In m rest -> (score best <= score m)%Z)
    \/ (exists k,
          nth_error rest k = Some r
          /\ (score r < score best)%Z
          /\ (forall m, In m rest -> (score r <= score m)%Z)
          /\ (forall j m, j < k -> nth_error rest j = Some m ->
                (score r < score m)%Z)).
Proof.
  induction rest as [|m rest IH]; intros best; simpl.
  - left. split; [reflexivity|intros m []].
  - split_best.
    + apply Z.ltb_lt in Hcmp. right.
      destruct (IH m) as [[Er Hall]|(k & Hk & Hlt & Hall & Hbefore)].
      * exists 0. rewrite Er. simpl. split; [reflexivity|].
        split; [assumption|]. split; [|intros; lia].
        intros m' [<-|Hin]; [lia|auto].
      * exists (S k). simpl. split; [assumption|]. split; [lia|]. split.
        -- intros m' [<-|Hin]; [lia|auto].
        -- intros [|j] m' Hj E; simpl in E.
           ++ injection E as <-. lia.
           ++ apply (Hbefore j); [lia|assumption].
    + apply Z.ltb_ge in Hcmp.
      destruct (IH best) as [[Er Hall]|(k & Hk & Hlt & Hall & Hbefore)].
      * left. split; [assumption|]. intros m' [<-|Hin]; [lia|auto].
      * right. exists (S k). simpl. split; [assumption|].
        split; [assumption|]. split.
        -- intros m' [<-|Hin]; [lia|auto].
        -- intros [|j] m' Hj E; simpl in E.
           ++ injection E as <-. lia.
           ++ apply (Hbefore j); [lia|assumption].
Qed.

Lemma maximize_firstBest (moves : list SearchResult) (d : SearchResult) :
  moves <> [] ->
  exists k, firstBest Z.gt moves k (maximize moves NegInf (hd d moves)).
Proof.
  destruct moves as [|m0 rest]; [congruence|]. intros _. simpl.
  destruct (maximize_Fin rest m0) as [[Er Hall]|(k & Hk & Hlt & Hall & Hbefore)].
  - exists 0. rewrite Er. split; [reflexivity|]. split; [|intros; lia].
    intros j m Hj. apply nth_error_In in Hj. destruct Hj as [<-|Hin]; [lia|].
    specialize (Hall m Hin). lia.
  - exists (S k). split; [assumption|]. split.
    + intros j m Hj. apply nth_error_In in Hj. destruct Hj as [<-|Hin]; [lia|].
      specialize (Hall m Hin). lia.
    + intros [|j] m Hj E; simpl in E.
      * injection E as <-. lia.
      * assert (score m < score (maximize rest (Fin (score m0)) m0))%Z
          by (apply (Hbefore j); [lia|assumption]).
        lia.
Qed.

Lemma minimize_firstBest (moves : list SearchResult) (d : SearchResult) :
  moves <> [] ->
  exists k, firstBest Z.lt moves k (minimize moves PosInf (hd d moves)).
Proof.
  destruct moves as [|m0 rest]; [congruence|]. intros _. simpl.
  destruct (minimize_Fin rest m0) as [[Er Hall]|(k & Hk & Hlt & Hall & Hbefore)].
  - exists 0. rewrite Er. split; [reflexivity|]. split; [|intros; lia].
    intros j m Hj. apply nth_error_In in Hj. destruct Hj as [<-|Hin]; [lia|].
    specialize (Hall m Hin). lia.
  - exists (S k). split; [assumption|]. split.
    + intros j m Hj. apply nth_error_In in Hj. destruct Hj as [<-|Hin]; [lia|].
      specialize (Hall m Hin). lia.
    + intros [|j] m Hj E; simpl in E.
      * injection E as <-. lia.
      * apply (Hbefore j); [lia|assumption].
Qed.

(** What [minimax] does on a board that is not terminal. *)
Lemma minimax_nonterminal (squares : board)
    (currentPlayer aiPlayer humanPlayer : Mark) (depth : Z) :
  calculateWinner squares <> Some aiPlayer ->
  calculateWinner squares <> Some humanPlayer ->
  getAvailableMoves squares <> [] ->
  exists moves r k,
    explored squares currentPlayer aiPlayer humanPlayer depth moves
    /\ minimax squares currentPlayer aiPlayer humanPlayer depth = Some r
    /\ (currentPlayer = aiPlayer -> firstBest Z.gt moves k r)
    /\ (currentPlayer <> aiPlayer -> firstBest Z.lt moves k r).
Proof.
  intros Hai Hhu Hne.
  apply cell_eqb_neq in Hai, Hhu.
  destruct (minimax_total squares currentPlayer aiPlayer humanPlayer depth)
    as [r Hr].
  pose proof Hr as Hres.
  rewrite minimax_explore in Hr by assumption.
  destruct (collect (exploreMoves squares currentPlayer aiPlayer humanPlayer depth))
    as [moves|] eqn:Ec; [|discriminate].
  injection Hr as Hr. apply collect_map in Ec.
  assert (Hex : explored squares currentPlayer aiPlayer humanPlayer depth moves).
  { revert Ec. apply Forall2_weaken_in. intros idx m _ Hm.
    destruct (minimax (assign squares idx (Some currentPlayer))
                (nextPlayer currentPlayer aiPlayer humanPlayer)
                aiPlayer humanPlayer (depth + 1)) as [result|];
      [|discriminate].
    injection Hm as <-. simpl. eauto. }
  assert (Hmoves : moves <> []).
  { intros ->. inversion Hex as [E|]. congruence. }
  unfold select in Hr.
  destruct (Mark_eqb currentPlayer aiPlayer) eqn:Ecur.
  - apply Mark_eqb_eq in Ecur.
    destruct (maximize_firstBest moves (mkResult None 0) Hmoves) as [k Hk].
    rewrite Hr in Hk. exists moves, r, k.
    repeat split; try tauto; try apply Hk.
  - apply Mark_eqb_neq in Ecur.
    destruct (minimize_firstBest moves (mkResult None 0) Hmoves) as [k Hk].
    rewrite Hr in Hk. exists moves, r, k.
    repeat split; try tauto; try apply Hk.
Qed.

(** C5. On a board with no winner and at least one legal move, [minimax]
    explores the legal moves in ascending index order and returns the entry
    with the greatest score when the player to move is the maximizing
    player, with the least score otherwise; among entries with that score it
    returns the first one explored. *)
Theorem minimax_selects_first_extreme (squares : board)
    (currentPlayer aiPlayer humanPlayer : Mark) (depth : Z) :
  calculateWinner squares = None ->
  getAvailableMoves squares <> [] ->
  StronglySorted lt (getAvailableMoves squares)
  /\ exists moves r k,
       explored squares currentPlayer aiPlayer humanPlayer depth moves
       /\ minimax squares currentPlayer aiPlayer humanPlayer depth = Some r
       /\ (currentPlayer = aiPlayer -> firstBest Z.gt moves k r)
       /\ (currentPlayer <> aiPlayer -> firstBest Z.lt moves k r).
Proof.
  intros Hw Hne. split; [apply getAvailableMoves_ascending|].
  apply minimax_nonterminal; rewrite ?Hw; (discriminate || assumption).
Qed.

Lemma minimax_selects_first_extreme_witness :
  let squares := [Some X; Some X; None; None; Some O; None; None; None; None] in
  calculateWinner squares = None
  /\ getAvailableMoves squares <> []
  /\ exists moves r k,
       explored squares O O X 0 moves
       /\ minimax squares O O X 0 = Some r
       /\ (O = O -> firstBest Z.gt moves k r)
       /\ (O <> O -> firstBest Z.lt moves k r).
Proof.
  split; [reflexivity|]. split; [discriminate|].
  apply (minimax_selects_first_extreme
           [Some X; Some X; None; None; Some O; None; None; None; None] O O X 0);
    [reflexivity|discriminate].
Defined.

(** A move index in the result of [minimax] is a legal move. *)
Lemma minimax_index_legal (squares : board)
    (currentPlayer aiPlayer humanPlayer : Mark) (depth : Z)
    (r : SearchResult) (i : nat) :
  minimax squares currentPlayer aiPlayer humanPlayer depth = Some r ->
  index r = Some i ->
  In i (getAvailableMoves squares).
Proof.
  intros Hr Hi.
  destruct (cell_eqb (calculateWinner squares) (Some aiPlayer)) eqn:Eai.
  { unfold minimax in Hr. rewrite minimax_fuel_S, Eai in Hr.
    injection Hr as <-. discriminate. }
  destruct (cell_eqb (calculateWinner squares) (Some humanPlayer)) eqn:Ehu.
  { unfold minimax in Hr. rewrite minimax_fuel_S, Eai, Ehu in Hr.
    injection Hr as <-. discriminate. }
  destruct (getAvailableMoves squares) as [|i0 rest] eqn:Ea.
  { unfold minimax in Hr. rewrite minimax_fuel_S, Eai, Ehu, Ea in Hr.
    injection Hr as <-. discriminate. }
  rewrite <- Ea. apply cell_eqb_neq in Eai, Ehu.
  destruct (minimax_nonterminal squares currentPlayer aiPlayer humanPlayer depth)
    as (moves & r' & k & Hex & Hr' & Hmax & Hmin);
    [assumption|assumption|congruence|].
  assert (r' = r) by congruence. subst r'.
  assert (Hk : nth_error moves k = Some r).
  { destruct (Mark_eqb currentPlayer aiPlayer) eqn:E.
    - apply Mark_eqb_eq in E. apply (Hmax E).
    - apply Mark_eqb_neq in E. apply (Hmin E). }
  clear -Hex Hk Hi. unfold explored in Hex. revert k Hk.
  induction Hex as [|idx m avail moves [Hidx _] _ IH]; intros [|k] Hk;
    simpl in Hk; try discriminate.
  - injection Hk as ->. left. congruence.
  - right. exact (IH k Hk).
Qed.

(** C6. A move index returned by [chooseMove] is the index of an empty cell
    of the board it was given, never that of an occupied cell. *)
Theorem chooseMove_empty_cell (squares : board) (aiMark humanMark : Mark)
    (i : nat) :
  chooseMove squares aiMark humanMark = Some i ->
  i < List.length squares
  /\ get squares i = None
  /\ truthy (get squares i) = false.
Proof.
  unfold chooseMove. intros H.
  destruct (minimax squares aiMark aiMark humanMark 0) as [best|] eqn:Eb;
    [|discriminate].
  pose proof (minimax_index_legal _ _ _ _ _ _ _ Eb H) as Hin.
  apply getAvailableMoves_In in Hin. destruct Hin as [Hlt Hg].
  rewrite Hg. auto.
Qed.

Lemma chooseMove_empty_cell_witness :
  let squares := [Some X; Some X; None; None; Some O; None; None; None; None] in
  chooseMove squares O X = Some 2 /\ get squares 2 = None.
Proof.
  split; [reflexivity|].
  apply (chooseMove_empty_cell
           [Some X; Some X; None; None; Some O; None; None; None; None] O X 2).
  reflexivity.
Defined.

(** C8. On the board with X at 0 and 1 and O at 4, the computer playing O:
    there is no winner, the legal moves are 2, 3, 5, 6, 7, 8, and the engine
    chooses cell 2. *)
Theorem scenario_block_at_2 :
  let squares := [Some X; Some X; None; None; Some O; None; None; None; None] in
  calculateWinner squares = None
  /\ getAvailableMoves squares = [2; 3; 5; 6; 7; 8]
  /\ (exists s, minimax squares O O X 0 = Some (mkResult (Some 2) s))
  /\ chooseMove squares O X = Some 2.
Proof.
  cbv zeta. split; [reflexivity|]. split; [reflexivity|].
  split; [exists 0%Z|]; vm_compute; reflexivity.
Qed.

(** ** Scores and forced losses *)

(** Replaces the result [r] of a search by its value, from [H : Some v = Some r]. *)
Ltac result_of H :=
  match type of H with
  | Some ?v = Some ?r =>
      assert (r = v) by congruence; subst r; clear H; cbn [score index]
  end.

Lemma Forall2_In_l {A B : Type} (R : A -> B -> Prop) (l : list A) (ys : list B)
    (x : A) :
  Forall2 R l ys -> In x l -> exists y, In y ys /\ R x y.
Proof.
  induction 1 as [|x0 y0 l ys H0 F IH]; intros Hin; [destruct Hin|].
  destruct Hin as [<-|Hin].
  - exists y0. simpl. auto.
  - destruct (IH Hin) as [y [Hy HR]]. exists y. simpl. auto.
Qed.

Lemma Forall2_In_r {A B : Type} (R : A -> B -> Prop) (l : list A) (ys : list B)
    (y : B) :
  Forall2 R l ys -> In y ys -> exists x, In x l /\ R x y.
Proof.
  induction 1 as [|x0 y0 l ys H0 F IH]; intros Hin; [destruct Hin|].
  destruct Hin as [<-|Hin].
  - exists x0. simpl. auto.
  - destruct (IH Hin) as [x [Hx HR]]. exists x. simpl. auto.
Qed.

Lemma firstBest_In (better : Z -> Z -> Prop) (moves : list SearchResult)
    (k : nat) (r : SearchResult) :
  firstBest better moves k r ->
  In r moves /\ forall m, In m moves -> ~ better (score m) (score r).
Proof.
  intros (Hk & Hall & _). split; [eapply nth_error_In; eassumption|].
  intros m Hm. apply In_nth_error in Hm. destruct Hm as [j Hj]. eauto.
Qed.

Lemma lossForcedWithin_lost (me : Mark) (n : nat) (b : board) (p : Mark) :
  calculateWinner b = Some (other me) -> lossForcedWithin me n b p = true.
Proof.
  intros Hw. destruct n; simpl; rewrite Hw; simpl; rewrite Mark_eqb_refl;
    reflexivity.
Qed.

Lemma lossForcedWithin_won (me : Mark) (n : nat) (b : board) (p : Mark) :
  calculateWinner b = Some me -> lossForcedWithin me n b p = false.
Proof.
  intros Hw. destruct n; simpl; rewrite Hw; simpl;
    destruct me; reflexivity.
Qed.

Lemma lossForcedWithin_0 (me : Mark) (b : board) (p : Mark) :
  calculateWinner b = None -> lossForcedWithin me 0 b p = false.
Proof. intros Hw. simpl. rewrite Hw. reflexivity. Qed.

Lemma lossForcedWithin_me (me : Mark) (n : nat) (b : board) :
  calculateWinner b = None ->
  getAvailableMoves b <> [] ->
  lossForcedWithin me (S n) b me = true <->
  forall i, In i (getAvailableMoves b) ->
            lossForcedWithin me n (assign b i (Some me)) (other me) = true.
Proof.
  intros Hw Hne. simpl. rewrite Hw. simpl. rewrite Mark_eqb_refl.
  rewrite andb_true_iff, forallb_forall, negb_true_iff, Nat.eqb_neq.
  rewrite length_zero_iff_nil. tauto.
Qed.

Lemma lossForcedWithin_opp (me : Mark) (n : nat) (b : board) :
  calculateWinner b = None ->
  lossForcedWithin me (S n) b (other me) = true <->
  exists i, In i (getAvailableMoves b)
            /\ lossForcedWithin me n (assign b i (Some (other me))) me = true.
Proof.
  intros Hw. simpl. rewrite Hw. simpl.
  rewrite (proj2 (Mark_eqb_neq (other me) me) (other_neq me)).
  apply existsb_exists.
Qed.

(** The score of [minimax] called at depth [d] for the maximizing player
    [me] lies between [d - 10] and [10 - d], and it tells whether and how
    soon [me] is forced to lose: as long as the remaining depth keeps the
    scores of wins positive and those of losses negative. *)
Lemma minimax_score_loss (e : nat) :
  forall (squares : board) (p me : Mark) (d : Z) (r : SearchResult),
    List.length (getAvailableMoves squares) = e ->
    (d + Z.of_nat e <= 9)%Z ->
    minimax squares p me (other me) d = Some r ->
    (d - 10 <= score r <= 10 - d)%Z
    /\ ((calculateWinner squares = None /\ e <> 0) ->
        (d + 1 - 10 <= score r <= 10 - (d + 1))%Z)
    /\ forall n,
         lossForcedWithin me n squares p = true <->
         (score r < 0 /\ score r <= d + Z.of_nat n - 10)%Z.
Proof.
  induction e as [|e IH]; intros squares p me d r He Hd Hr.
  - apply length_zero_iff_nil in He.
    destruct (calculateWinner squares) as [w|] eqn:Ew.
    + destruct (mark_cases me w) as [->| ->].
      * rewrite minimax_won in Hr by assumption. result_of Hr.
        split; [lia|]. split; [intros [? _]; discriminate|].
        intros n. rewrite lossForcedWithin_won by assumption.
        split; [discriminate|lia].
      * rewrite minimax_lost in Hr
          by (assumption || (intros E; symmetry in E; revert E; apply other_neq)).
        result_of Hr.
        split; [lia|]. split; [intros [? _]; discriminate|].
        intros n. rewrite lossForcedWithin_lost by assumption.
        split; [lia|reflexivity].
    + rewrite minimax_drawn in Hr by assumption. result_of Hr.
      split; [lia|]. split; [intros [_ ?]; congruence|].
      intros n. split; [|lia].
      destruct n as [|n]; simpl; rewrite Ew; simpl; [discriminate|].
      rewrite He. destruct (Mark_eqb p me); simpl; discriminate.
  - assert (Hne : getAvailableMoves squares <> []).
    { intros E. rewrite E in He. discriminate. }
    destruct (calculateWinner squares) as [w|] eqn:Ew.
    + destruct (mark_cases me w) as [->| ->].
      * rewrite minimax_won in Hr by assumption. result_of Hr.
        split; [lia|]. split; [intros [? _]; discriminate|].
        intros n. rewrite lossForcedWithin_won by assumption.
        split; [discriminate|lia].
      * rewrite minimax_lost in Hr
          by (assumption || (intros E; symmetry in E; revert E; apply other_neq)).
        result_of Hr.
        split; [lia|]. split; [intros [? _]; discriminate|].
        intros n. rewrite lossForcedWithin_lost by assumption.
        split; [lia|reflexivity].
    + destruct (minimax_nonterminal squares p me (other me) d)
        as (moves & r' & k & Hex & Hr' & Hmax & Hmin);
        [rewrite Ew; discriminate|rewrite Ew; discriminate|assumption|].
      assert (r' = r) by congruence. subst r'. unfold explored in Hex.
      (* what the induction hypothesis says of the child of a legal move *)
      assert (Hchild : forall idx m,
                 In idx (getAvailableMoves squares) ->
                 index m = Some idx
                 /\ (exists result,
                       minimax (assign squares idx (Some p))
                         (nextPlayer p me (other me)) me (other me) (d + 1)
                       = Some result
                       /\ score m = score result) ->
                 (d + 1 - 10 <= score m <= 10 - (d + 1))%Z
                 /\ forall n,
                      lossForcedWithin me n (assign squares idx (Some p))
                        (nextPlayer p me (other me)) = true <->
                      (score m < 0 /\ score m <= d + 1 + Z.of_nat n - 10)%Z).
      { intros idx m Hin [_ (result & Hres & Hs)].
        pose proof (getAvailableMoves_assign squares idx p Hin) as Hless.
        assert (Hle : List.length
                        (getAvailableMoves (assign squares idx (Some p))) = e)
          by lia.
        assert (Hd' : (d + 1 + Z.of_nat e <= 9)%Z) by lia.
        destruct (IH _ _ _ _ _ Hle Hd' Hres) as (Hb & _ & Hl).
        rewrite Hs. split; [exact Hb|exact Hl]. }
      destruct (mark_cases me p) as [->| ->].
      * (* the maximizing player moves *)
        destruct (firstBest_In _ _ _ _ (Hmax eq_refl)) as [Hin Hbest].
        destruct (Forall2_In_r _ _ _ _ Hex Hin) as (ir & Hir & Hrr).
        destruct (Hchild ir r Hir Hrr) as [Hbr Hlr].
        split; [lia|]. split; [intros _; lia|].
        assert (Hnext : nextPlayer me me (other me) = other me)
          by (unfold nextPlayer; rewrite Mark_eqb_refl; reflexivity).
        rewrite Hnext in *.
        intros [|n].
        -- rewrite lossForcedWithin_0 by assumption. split; [discriminate|lia].
        -- rewrite lossForcedWithin_me by assumption. split.
           ++ intros Hall. apply Hlr in Hall; [lia|assumption].
           ++ intros Hs idx Hidx.
              destruct (Forall2_In_l _ _ _ _ Hex Hidx) as (m & Hm & Hrm).
              destruct (Hchild idx m Hidx Hrm) as [_ Hlm]. apply Hlm.
              specialize (Hbest m Hm). lia.
      * (* the minimizing player moves *)
        destruct (firstBest_In _ _ _ _ (Hmin (other_neq me))) as [Hin Hbest].
        destruct (Forall2_In_r _ _ _ _ Hex Hin) as (ir & Hir & Hrr).
        destruct (Hchild ir r Hir Hrr) as [Hbr Hlr].
        split; [lia|]. split; [intros _; lia|].
        assert (Hnext : nextPlayer (other me) me (other me) = me).
        { unfold nextPlayer.
          rewrite (proj2 (Mark_eqb_neq (other me) me) (other_neq me)).
          reflexivity. }
        rewrite Hnext in *.
        intros [|n].
        -- rewrite lossForcedWithin_0 by assumption. split; [discriminate|lia].
        -- rewrite lossForcedWithin_opp by assumption. split.
           ++ intros (idx & Hidx & Hl).
              destruct (Forall2_In_l _ _ _ _ Hex Hidx) as (m & Hm & Hrm).
              destruct (Hchild idx m Hidx Hrm) as [_ Hlm]. apply Hlm in Hl.
              specialize (Hbest m Hm). lia.
           ++ intros Hs. exists ir. split; [assumption|]. apply Hlr. lia.
Qed.

(** The scores of two moves compare like the numbers of plies before the
    loss they lead to. *)
Lemma pliesToLoss_of_score (me : Mark) (b : board) (p : Mark) (d s : Z) :
  (d - 10 <= s < 0)%Z ->
  (forall n, lossForcedWithin me n b p = true <->
             (s < 0 /\ s <= d + Z.of_nat n - 10)%Z) ->
  pliesToLoss me b p (Z.to_nat (s + 10 - d)).
Proof.
  intros Hs Hl. split.
  - apply Hl. lia.
  - intros k Hk. destruct (lossForcedWithin me k b p) eqn:E; [|reflexivity].
    apply Hl in E. lia.
Qed.

(** C7. On a 9-cell board on which the game is not over and every legal move
    of the engine's player leads to a position where its loss is forced,
    [chooseMove] returns a legal move after which the loss under optimal
    play comes after [n] plies, and no legal move delays the loss for more
    than [n] plies. *)
Theorem chooseMove_delays_loss (squares : board) (me : Mark) :
  List.length squares = 9 ->
  calculateWinner squares = None ->
  getAvailableMoves squares <> [] ->
  (forall j, In j (getAvailableMoves squares) ->
     exists n, lossForcedWithin me n (assign squares j (Some me)) (other me) = true) ->
  exists i n,
    chooseMove squares me (other me) = Some i
    /\ In i (getAvailableMoves squares)
    /\ pliesToLoss me (assign squares i (Some me)) (other me) n
    /\ forall j, In j (getAvailableMoves squares) ->
         exists k, k <= n
                   /\ pliesToLoss me (assign squares j (Some me)) (other me) k.
Proof.
  intros Hlen Hw Hne Hlost.
  destruct (minimax_nonterminal squares me me (other me) 0)
    as (moves & r & k & Hex & Hr & Hmax & _);
    [rewrite Hw; discriminate|rewrite Hw; discriminate|assumption|].
  destruct (firstBest_In _ _ _ _ (Hmax eq_refl)) as [Hin Hbest].
  unfold explored in Hex.
  assert (Hnext : nextPlayer me me (other me) = other me)
    by (unfold nextPlayer; rewrite Mark_eqb_refl; reflexivity).
  rewrite Hnext in Hex.
  pose proof (getAvailableMoves_length squares) as Hcount.
  (* every explored move has a negative score that counts the plies *)
  assert (Hmove : forall j m,
             In j (getAvailableMoves squares) ->
             index m = Some j
             /\ (exists result,
                   minimax (assign squares j (Some me)) (other me) me (other me)
                     (0 + 1) = Some result
                   /\ score m = score result) ->
             (1 - 10 <= score m < 0)%Z
             /\ pliesToLoss me (assign squares j (Some me)) (other me)
                  (Z.to_nat (score m + 10 - 1))).
  { intros j m Hj [_ (result & Hres & Hs)].
    pose proof (getAvailableMoves_assign squares j me Hj) as Hless.
    assert (Hd : (0 + 1 + Z.of_nat (List.length (getAvailableMoves
                                     (assign squares j (Some me)))) <= 9)%Z)
      by lia.
    destruct (minimax_score_loss _ _ _ _ _ _ eq_refl Hd Hres)
      as (Hb & _ & Hl).
    destruct (Hlost j Hj) as [n Hn]. apply Hl in Hn.
    rewrite Hs. split; [lia|].
    apply pliesToLoss_of_score; [lia|exact Hl]. }
  destruct (Forall2_In_r _ _ _ _ Hex Hin) as (i & Hi & Hri).
  destruct (Hmove i r Hi Hri) as [Hsr Hpr].
  exists i, (Z.to_nat (score r + 10 - 1)).
  split; [unfold chooseMove; rewrite Hr; tauto|].
  split; [assumption|]. split; [assumption|].
  intros j Hj.
  destruct (Forall2_In_l _ _ _ _ Hex Hj) as (m & Hm & Hrm).
  destruct (Hmove j m Hj Hrm) as [Hsm Hpm].
  exists (Z.to_nat (score m + 10 - 1)). split; [|assumption].
  specialize (Hbest m Hm). lia.
Qed.

Lemma chooseMove_delays_loss_witness :
  let squares := [Some X; Some O; None; None; Some X; None; None; None; None] in
  exists i n,
    chooseMove squares O X = Some i
    /\ In i (getAvailableMoves squares)
    /\ pliesToLoss O (assign squares i (Some O)) X n
    /\ forall j, In j (getAvailableMoves squares) ->
         exists k, k <= n /\ pliesToLoss O (assign squares j (Some O)) X k.
Proof.
  apply (chooseMove_delays_loss
           [Some X; Some O; None; None; Some X; None; None; None; None] O).
  - reflexivity.
  - reflexivity.
  - discriminate.
  - intros j Hj. exists 3. simpl in Hj.
    repeat (destruct Hj as [<-|Hj]; [reflexivity|]). destruct Hj.
Defined.

(** ** Full games *)

Lemma isOver_false (b : board) :
  isOver b = false <-> calculateWinner b = None /\ getAvailableMoves b <> [].
Proof.
  unfold isOver. rewrite orb_false_iff, truthy_false, Nat.eqb_neq.
  rewrite length_zero_iff_nil. reflexivity.
Qed.

Lemma isOver_true (b : board) :
  isOver b = true <->
  (exists m, calculateWinner b = Some m)
  \/ (calculateWinner b = None /\ getAvailableMoves b = []).
Proof.
  unfold isOver. rewrite orb_true_iff, Nat.eqb_eq, length_zero_iff_nil.
  destruct (calculateWinner b) as [m|]; simpl; split.
  - intros _. left. eauto.
  - auto.
  - intros [H|H]; [discriminate|auto].
  - intros [[m H]|[_ H]]; [discriminate|auto].
Qed.

(** On a board where the game is not over the engine returns a move. *)
Lemma chooseMove_some (b : board) (aiMark humanMark : Mark) :
  isOver b = false -> exists i, chooseMove b aiMark humanMark = Some i.
Proof.
  intros Hno. apply isOver_false in Hno. destruct Hno as [Hw Hne].
  destruct (minimax_nonterminal b aiMark aiMark humanMark 0)
    as (moves & r & k & Hex & Hr & Hmax & _);
    [rewrite Hw; discriminate|rewrite Hw; discriminate|assumption|].
  destruct (firstBest_In _ _ _ _ (Hmax eq_refl)) as [Hin _].
  destruct (Forall2_In_r _ _ _ _ Hex Hin) as (i & _ & Hi & _).
  exists i. unfold chooseMove. rewrite Hr. exact Hi.
Qed.

(** A move of the engine is one of the moves a free player may play. *)
Lemma move_engine_free (c : controller) (b : board) (p : Mark) (b' : board) :
  move c b p b' -> move Free b p b'.
Proof.
  intros [i Hc Hi|i Hc Hi].
  - apply move_free; [reflexivity|].
    unfold chooseMove in Hi.
    destruct (minimax b p p (other p) 0) as [best|] eqn:Eb; [|discriminate].
    exact (minimax_index_legal _ _ _ _ _ _ _ Eb Hi).
  - apply move_free; [reflexivity|assumption].
Qed.

Lemma move_allows (c c' : controller) (b : board) (p : Mark) (b' : board) :
  allows c' c -> move c b p b' -> move c' b p b'.
Proof.
  intros [->| ->] H; [eapply move_engine_free; eassumption|assumption].
Qed.

Lemma playout_allows (cx co cx' co' : controller) (b : board) (p : Mark)
    (final : board) :
  allows cx' cx -> allows co' co ->
  playout cx co b p final -> playout cx' co' b p final.
Proof.
  intros Hx Ho. induction 1 as [b p Hover|b p b' final Hno Hm _ IH].
  - apply playout_over. assumption.
  - apply playout_move with b'; [assumption| |assumption].
    revert Hm. apply move_allows. destruct p; assumption.
Qed.

(** The exploration [neverLoses] covers every play-out. *)
Lemma neverLoses_sound (cx co : controller) (e : Mark) (fuel : nat) :
  forall (b : board) (p : Mark) (final : board),
    neverLoses fuel cx co e b p = true ->
    playout cx co b p final ->
    calculateWinner final <> Some (other e).
Proof.
  induction fuel as [|fuel IH]; intros b p final Hc Hp; [discriminate|].
  simpl in Hc. destruct Hp as [b p Hover|b p b' final Hno Hm Hp].
  - rewrite Hover in Hc. apply negb_true_iff, cell_eqb_neq in Hc. exact Hc.
  - rewrite Hno in Hc.
    destruct Hm as [i Hctl Hi|i Hctl Hi]; rewrite Hctl in Hc.
    + rewrite Hi in Hc. exact (IH _ _ _ Hc Hp).
    + rewrite forallb_forall in Hc. exact (IH _ _ _ (Hc i Hi) Hp).
Qed.

(** Every play-out stops on a board where the game is over. *)
Lemma playout_isOver (cx co : controller) (b : board) (p : Mark) (final : board) :
  playout cx co b p final -> isOver final = true.
Proof. induction 1; assumption. Qed.

(** From every board there is a play-out. *)
Lemma playout_exists (cx co : controller) (n : nat) :
  forall (b : board) (p : Mark),
    List.length (getAvailableMoves b) <= n ->
    exists final, playout cx co b p final.
Proof.
  induction n as [|n IH]; intros b p Hn.
  - exists b. apply playout_over. apply isOver_true.
    assert (getAvailableMoves b = []) by (apply length_zero_iff_nil; lia).
    destruct (calculateWinner b); eauto.
  - destruct (isOver b) eqn:Hover.
    + exists b. apply playout_over. assumption.
    + assert (Hi : exists i, In i (getAvailableMoves b)
                             /\ move (controllerOf cx co p) b p
                                  (assign b i (Some p))).
      { destruct (controllerOf cx co p) eqn:Ec.
        - destruct (chooseMove_some b p (other p) Hover) as [i Hi].
          exists i. split; [|apply move_engine; auto].
          unfold chooseMove in Hi.
          destruct (minimax b p p (other p) 0) as [best|] eqn:Eb; [|discriminate].
          exact (minimax_index_legal _ _ _ _ _ _ _ Eb Hi).
        - apply isOver_false in Hover. destruct Hover as [_ Hne].
          destruct (getAvailableMoves b) as [|i rest] eqn:Ea; [congruence|].
          exists i. split; [left; reflexivity|].
          apply move_free; [reflexivity|]. rewrite Ea. left. reflexivity. }
      destruct Hi as (i & Hin & Hm).
      destruct (IH (assign b i (Some p)) (other p)) as [final Hf].
      * pose proof (getAvailableMoves_assign b i p Hin). lia.
      * exists final. eapply playout_move; eassumption.
Qed.

(** The engine playing X against any play of O, whoever starts. *)
Lemma neverLoses_engine_X (first : Mark) :
  neverLoses 10 Engine Free X emptyBoard first = true.
Proof. destruct first; vm_compute; reflexivity. Qed.

(** The engine playing O against any play of X, whoever starts. *)
Lemma neverLoses_engine_O (first : Mark) :
  neverLoses 10 Free Engine O emptyBoard first = true.
Proof. destruct first; vm_compute; reflexivity. Qed.

(** C1. A game played from the empty board in which the side [e] is played
    by the engine (called for the mover, as maximizing player, at depth 0)
    and the other side by the engine too or by any legal moves: such a game
    exists, and whichever way it goes it stops with no completed line of the
    opponent of [e], that is, with a line of [e] or with a full board and no
    winner.  When both sides are played by the engine it stops in a draw. *)
Theorem engine_never_loses (cx co : controller) (first e : Mark) :
  controllerOf cx co e = Engine ->
  (exists final, playout cx co emptyBoard first final)
  /\ (forall final,
        playout cx co emptyBoard first final ->
        isOver final = true
        /\ calculateWinner final <> Some (other e)
        /\ (calculateWinner final = Some e
            \/ (calculateWinner final = None /\ getAvailableMoves final = [])))
  /\ (cx = Engine -> co = Engine ->
      forall final,
        playout cx co emptyBoard first final ->
        calculateWinner final = None /\ getAvailableMoves final = []).
Proof.
  intros He.
  assert (Hsafe : forall e' final,
             controllerOf cx co e' = Engine ->
             playout cx co emptyBoard first final ->
             calculateWinner final <> Some (other e')).
  { intros e' final He' Hp. destruct e'; simpl in He'.
    - apply (neverLoses_sound Engine Free X 10 emptyBoard first);
        [apply neverLoses_engine_X|].
      revert Hp. apply playout_allows; unfold allows; auto.
    - apply (neverLoses_sound Free Engine O 10 emptyBoard first);
        [apply neverLoses_engine_O|].
      revert Hp. apply playout_allows; unfold allows; auto. }
  split; [apply (playout_exists cx co 9); vm_compute; lia|]. split.
  - intros final Hp.
    pose proof (playout_isOver _ _ _ _ _ Hp) as Hover.
    pose proof (Hsafe e final He Hp) as Hnot.
    split; [assumption|]. split; [assumption|].
    apply isOver_true in Hover. destruct Hover as [[m Hm]|Hdraw]; [|auto].
    left. rewrite Hm in *. destruct (mark_cases e m) as [->| ->]; congruence.
  - intros -> -> final Hp.
    pose proof (playout_isOver _ _ _ _ _ Hp) as Hover.
    apply isOver_true in Hover. destruct Hover as [[m Hm]|Hdraw]; [|auto].
    exfalso. apply (Hsafe (other m) final); [destruct m; reflexivity|assumption|].
    rewrite other_involutive. assumption.
Qed.

Ltac free_plays i :=
  eapply playout_move;
  [ vm_compute; reflexivity
  | apply (move_free _ _ _ i);
    [ reflexivity
    | apply getAvailableMoves_In; split; [vm_compute; lia|reflexivity] ]
  | cbv [assign other] ].

Ltac engine_plays i :=
  eapply playout_move;
  [ vm_compute; reflexivity
  | apply (move_engine _ _ _ i); [reflexivity|vm_compute; reflexivity]
  | cbv [assign other] ].

Lemma engine_never_loses_witness :
  let final := [Some O; Some X; Some X;
                Some X; Some X; Some O;
                Some O; Some O; Some X] in
  controllerOf Free Engine O = Engine
  /\ playout Free Engine emptyBoard X final
  /\ calculateWinner final <> Some (other O).
Proof.
  cbv zeta.
  assert (Hp : playout Free Engine emptyBoard X
                 [Some O; Some X; Some X;
                  Some X; Some X; Some O;
                  Some O; Some O; Some X]).
  { unfold emptyBoard. cbv [repeat].
    free_plays 4. engine_plays 0. free_plays 1. engine_plays 7.
    free_plays 3. engine_plays 5. free_plays 2. engine_plays 6.
    free_plays 8. apply playout_over. reflexivity. }
  split; [reflexivity|]. split; [exact Hp|].
  destruct (engine_never_loses Free Engine X O eq_refl) as (_ & Hall & _).
  apply (Hall _ Hp).
Defined.

(** ** The game controller *)

Lemma handleSquareClick_keeps (index : nat) (st : App.State) (i : nat) (m : Mark) :
  get (App.squares st) i = Some m ->
  get (App.squares (App.handleSquareClick index st)) i = Some m.
Proof.
  intros Hi. unfold App.handleSquareClick.
  destruct (App.gameOver st); simpl; [assumption|].
  destruct (truthy (get (App.squares st) index)) eqn:Et; simpl; [assumption|].
  destruct (App.Mode_eqb (App.mode st) App.AI && negb (App.xIsNext st));
    simpl; [assumption|].
  rewrite get_assign_other; [assumption|].
  intros ->. rewrite Hi in Et. discriminate.
Qed.

(** The AI effect leaves the board as it is or writes the AI's mark to a
    cell that is empty when it does so. *)
Lemma aiMove_writes_empty (st : App.State) :
  App.squares (App.aiMove st) = App.squares st
  \/ exists aiIndex,
       get (App.squares st) aiIndex = None
       /\ App.squares (App.aiMove st)
          = assign (App.squares st) aiIndex (Some App.aiPlayer).
Proof.
  unfold App.aiMove.
  destruct (App.Mode_eqb (App.mode st) App.AI && negb (App.gameOver st)
            && negb (App.xIsNext st)); [|auto].
  destruct (chooseMove (App.squares st) App.aiPlayer App.humanPlayer)
    as [aiIndex|]; [|auto].
  destruct (truthy (get (App.squares st) aiIndex)) eqn:Et; simpl; [auto|].
  right. exists aiIndex. apply truthy_false in Et. auto.
Qed.

Lemma aiMove_keeps (st : App.State) (i : nat) (m : Mark) :
  get (App.squares st) i = Some m ->
  get (App.squares (App.aiMove st)) i = Some m.
Proof.
  intros Hi.
  destruct (aiMove_writes_empty st) as [->|(aiIndex & He & ->)]; [assumption|].
  rewrite get_assign_other; [assumption|].
  intros ->. congruence.
Qed.

Lemma statusEffect_squares (st : App.State) :
  App.squares (App.statusEffect st) = App.squares st.
Proof.
  unfold App.statusEffect.
  destruct (App.winner st); [reflexivity|].
  destruct (App.isDraw st); reflexivity.
Qed.

Lemma step_keeps (e : App.Event) (st : App.State) (i : nat) (m : Mark) :
  App.resetsBoard e = false ->
  get (App.squares st) i = Some m ->
  get (App.squares (App.step e st)) i = Some m.
Proof.
  destruct e; simpl; try discriminate; intros _ Hi.
  - apply handleSquareClick_keeps. assumption.
  - apply aiMove_keeps. assumption.
  - rewrite statusEffect_squares. assumption.
Qed.

(** C10. In the controller a cell that holds a mark keeps it until the board
    is reset.  In every state, reachable or not: a click leaves the board
    unchanged when the game is over, when the clicked cell is occupied or
    when it is the AI's turn in AI mode; the AI effect changes nothing or
    writes to a cell that is empty at that moment; and along any sequence of
    events that does not run [startNewRound] or [resetGame] (directly or
    through [changeMode]) every occupied cell keeps its mark. *)
Theorem occupied_cells_persist :
  (forall st index,
     App.gameOver st = true
     \/ truthy (get (App.squares st) index) = true
     \/ (App.mode st = App.AI /\ App.xIsNext st = false) ->
     App.squares (App.handleSquareClick index st) = App.squares st)
  /\ (forall st,
        App.squares (App.aiMove st) = App.squares st
        \/ exists aiIndex,
             get (App.squares st) aiIndex = None
             /\ App.squares (App.aiMove st)
                = assign (App.squares st) aiIndex (Some App.aiPlayer))
  /\ (forall e st i m,
        App.resetsBoard e = false ->
        get (App.squares st) i = Some m ->
        get (App.squares (App.step e st)) i = Some m)
  /\ (forall es st i m,
        forallb (fun e => negb (App.resetsBoard e)) es = true ->
        get (App.squares st) i = Some m ->
        get (App.squares (App.run es st)) i = Some m)
  /\ (forall e st,
        App.resetsBoard e = true ->
        App.squares (App.step e st) = emptyBoard).
Proof.
  split; [|split; [exact aiMove_writes_empty|split; [exact step_keeps|split]]].
  - intros st index H. unfold App.handleSquareClick.
    destruct H as [->|[->|[-> ->]]]; simpl; rewrite ?orb_true_r; reflexivity.
  - induction es as [|e es IH]; intros st i m Hes Hi; simpl in *; [assumption|].
    apply andb_true_iff in Hes. destruct Hes as [He Hes].
    apply IH; [assumption|]. apply step_keeps; [|assumption].
    apply negb_true_iff. assumption.
  - intros [] st H; simpl in H; try discriminate; reflexivity.
Qed.

Lemma occupied_cells_persist_witness :
  let st := App.run [App.Click 4; App.StatusEffect; App.AiTimer] App.init in
  App.squares st
  = [Some O; None; None; None; Some X; None; None; None; None]
  /\ get (App.squares (App.run [App.Click 0; App.Click 4; App.AiTimer] st)) 4
     = Some X.
Proof.
  cbv zeta. split; [vm_compute; reflexivity|].
  destruct occupied_cells_persist as (_ & _ & _ & Hrun & _).
  apply Hrun; vm_compute; reflexivity.
Defined.

(** * Further properties of the engine *)

(** A result returned by [minimax] comes from one of its four exits. *)
Lemma minimax_cases (squares : board)
    (currentPlayer aiPlayer humanPlayer : Mark) (depth : Z) (r : SearchResult) :
  minimax squares currentPlayer aiPlayer humanPlayer depth = Some r ->
  r = mkResult None (10 - depth)
  \/ r = mkResult None (depth - 10)
  \/ (r = mkResult None 0 /\ getAvailableMoves squares = [])
  \/ (getAvailableMoves squares <> []
      /\ exists moves k,
           explored squares currentPlayer aiPlayer humanPlayer depth moves
           /\ nth_error moves k = Some r).
Proof.
  intros Hr.
  destruct (cell_eqb (calculateWinner squares) (Some aiPlayer)) eqn:Eai.
  { unfold minimax in Hr. rewrite minimax_fuel_S, Eai in Hr.
    left. congruence. }
  destruct (cell_eqb (calculateWinner squares) (Some humanPlayer)) eqn:Ehu.
  { unfold minimax in Hr. rewrite minimax_fuel_S, Eai, Ehu in Hr.
    right. left. congruence. }
  destruct (getAvailableMoves squares) as [|i0 rest] eqn:Ea.
  { unfold minimax in Hr. rewrite minimax_fuel_S, Eai, Ehu, Ea in Hr.
    right. right. left. split; congruence. }
  right. right. right. rewrite <- Ea. split; [congruence|].
  apply cell_eqb_neq in Eai, Ehu.
  destruct (minimax_nonterminal squares currentPlayer aiPlayer humanPlayer depth)
    as (moves & r' & k & Hex & Hr' & Hmax & Hmin);
    [assumption|assumption|congruence|].
  assert (r' = r) by congruence. subst r'.
  exists moves, k. split; [assumption|].
  destruct (Mark_eqb currentPlayer aiPlayer) eqn:E.
  - apply Mark_eqb_eq in E. apply (Hmax E).
  - apply Mark_eqb_neq in E. apply (Hmin E).
Qed.

Lemma minimax_score_range (e : nat) :
  forall (squares : board) (currentPlayer aiPlayer humanPlayer : Mark)
         (depth : Z) (r : SearchResult),
    List.length (getAvailableMoves squares) = e ->
    (depth + Z.of_nat e <= 10)%Z ->
    minimax squares currentPlayer aiPlayer humanPlayer depth = Some r ->
    (depth - 10 <= score r <= 10 - depth)%Z.
Proof.
  induction e as [|e IH]; intros squares cur ai hu depth r He Hd Hr;
    destruct (minimax_cases _ _ _ _ _ _ Hr)
      as [->|[->|[[-> _]|(Hne & moves & k & Hex & Hk)]]];
    cbn [score]; try lia.
  - apply length_zero_iff_nil in He. congruence.
  - unfold explored in Hex. apply nth_error_In in Hk.
    destruct (Forall2_In_r _ _ _ _ Hex Hk) as (idx & Hidx & _ & result & Hres & Hs).
    pose proof (getAvailableMoves_assign squares idx cur Hidx) as Hless.
    assert (Hle : List.length
                    (getAvailableMoves (assign squares idx (Some cur))) = e)
      by lia.
    assert (Hd' : (depth + 1 + Z.of_nat e <= 10)%Z) by lia.
    pose proof (IH _ _ _ _ _ _ Hle Hd' Hres). lia.
Qed.

(** X1. The score returned by [minimax] at depth [depth] lies between
    [depth - 10] and [10 - depth], provided the depth plus the number of
    empty cells does not exceed 10; on a 9-cell board searched from depth 0
    it lies between -10 and 10. *)
Theorem minimax_score_bounds (squares : board)
    (currentPlayer aiPlayer humanPlayer : Mark) (depth : Z) (r : SearchResult) :
  (depth + Z.of_nat (List.length (getAvailableMoves squares)) <= 10)%Z ->
  minimax squares currentPlayer aiPlayer humanPlayer depth = Some r ->
  (depth - 10 <= score r <= 10 - depth)%Z.
Proof. intros Hd Hr. eapply minimax_score_range; eauto. Qed.

Lemma minimax_score_bounds_witness :
  exists r,
    minimax [Some X; Some O; None; None; Some X; None; None; None; None] O O X 0
    = Some r
    /\ (0 - 10 <= score r <= 10 - 0)%Z.
Proof.
  exists (mkResult (Some 8) (-6)).
  assert (H : minimax [Some X; Some O; None; None; Some X; None; None; None; None]
                O O X 0 = Some (mkResult (Some 8) (-6)))
    by (vm_compute; reflexivity).
  split; [exact H|].
  apply (minimax_score_bounds
           [Some X; Some O; None; None; Some X; None; None; None; None]
           O O X 0 (mkResult (Some 8) (-6))); [vm_compute; discriminate|exact H].
Defined.

(** On a board where the game is over the engine returns no move. *)
Lemma chooseMove_over (squares : board) (aiMark humanMark : Mark) :
  aiMark <> humanMark ->
  isOver squares = true ->
  chooseMove squares aiMark humanMark = None.
Proof.
  intros Hdiff Hover. apply isOver_true in Hover. unfold chooseMove.
  destruct Hover as [[m Hm]|[Hw Hfull]].
  - destruct (mark_cases aiMark m) as [-> | ->].
    + rewrite minimax_won by assumption. reflexivity.
    + assert (other aiMark = humanMark)
        by (destruct aiMark, humanMark; simpl; congruence).
      rewrite minimax_lost by congruence. reflexivity.
  - rewrite minimax_drawn by assumption. reflexivity.
Qed.

(** X2. For distinct marks, [chooseMove] returns no move exactly when the
    game is over on the board (a line is complete or no cell is empty). *)
Theorem chooseMove_none_iff_over (squares : board) (aiMark humanMark : Mark) :
  aiMark <> humanMark ->
  (chooseMove squares aiMark humanMark = None <-> isOver squares = true).
Proof.
  intros Hdiff. split.
  - intros Hnone. destruct (isOver squares) eqn:Hover; [reflexivity|].
    destruct (chooseMove_some squares aiMark humanMark Hover) as [i Hi].
    congruence.
  - apply chooseMove_over. assumption.
Qed.

Lemma chooseMove_none_iff_over_witness :
  O <> X
  /\ chooseMove [Some X; Some X; Some X; Some O; Some O; None; None; None; None]
       O X = None.
Proof.
  assert (Hd : O <> X) by discriminate.
  split; [exact Hd|].
  apply (chooseMove_none_iff_over
           [Some X; Some X; Some X; Some O; Some O; None; None; None; None]
           O X Hd).
  reflexivity.
Defined.

(** The score of [minimax], called for the maximizing player [other opp],
    tells whether and how soon [opp] is forced to lose. *)
Lemma minimax_score_win (e : nat) :
  forall (squares : board) (p opp : Mark) (d : Z) (r : SearchResult),
    List.length (getAvailableMoves squares) = e ->
    (d + Z.of_nat e <= 9)%Z ->
    minimax squares p (other opp) opp d = Some r ->
    ((calculateWinner squares = None /\ e <> 0) ->
     (d + 1 - 10 <= score r <= 10 - (d + 1))%Z)
    /\ forall n,
         lossForcedWithin opp n squares p = true <->
         (0 < score r /\ 10 - (d + Z.of_nat n) <= score r)%Z.
Proof.
  induction e as [|e IH]; intros squares p opp d r He Hd Hr.
  - apply length_zero_iff_nil in He.
    destruct (calculateWinner squares) as [w|] eqn:Ew.
    + destruct (mark_cases opp w) as [-> | ->].
      * rewrite minimax_lost in Hr by (assumption || apply other_neq).
        result_of Hr.
        split; [intros [? _]; discriminate|].
        intros n. rewrite lossForcedWithin_won by assumption.
        split; [discriminate|lia].
      * rewrite minimax_won in Hr by assumption. result_of Hr.
        split; [intros [? _]; discriminate|].
        intros n. rewrite lossForcedWithin_lost by assumption.
        split; [lia|reflexivity].
    + rewrite minimax_drawn in Hr by assumption. result_of Hr.
      split; [intros [_ ?]; congruence|].
      intros n. split; [|lia].
      destruct n as [|n]; simpl; rewrite Ew; simpl; [discriminate|].
      rewrite He. destruct (Mark_eqb p opp); simpl; discriminate.
  - assert (Hne : getAvailableMoves squares <> []).
    { intros E. rewrite E in He. discriminate. }
    destruct (calculateWinner squares) as [w|] eqn:Ew.
    + destruct (mark_cases opp w) as [-> | ->].
      * rewrite minimax_lost in Hr by (assumption || apply other_neq).
        result_of Hr.
        split; [intros [? _]; discriminate|].
        intros n. rewrite lossForcedWithin_won by assumption.
        split; [discriminate|lia].
      * rewrite minimax_won in Hr by assumption. result_of Hr.
        split; [intros [? _]; discriminate|].
        intros n. rewrite lossForcedWithin_lost by assumption.
        split; [lia|reflexivity].
    + destruct (minimax_nonterminal squares p (other opp) opp d)
        as (moves & r' & k & Hex & Hr' & Hmax & Hmin);
        [rewrite Ew; discriminate|rewrite Ew; discriminate|assumption|].
      assert (r' = r) by congruence. subst r'. unfold explored in Hex.
      assert (Hchild : forall idx m,
                 In idx (getAvailableMoves squares) ->
                 index m = Some idx
                 /\ (exists result,
                       minimax (assign squares idx (Some p))
                         (nextPlayer p (other opp) opp) (other opp) opp (d + 1)
                       = Some result
                       /\ score m = score result) ->
                 (d + 1 - 10 <= score m <= 10 - (d + 1))%Z
                 /\ forall n,
                      lossForcedWithin opp n (assign squares idx (Some p))
                        (nextPlayer p (other opp) opp) = true <->
                      (0 < score m /\ 10 - (d + 1 + Z.of_nat n) <= score m)%Z).
      { intros idx m Hin [_ (result & Hres & Hs)].
        pose proof (getAvailableMoves_assign squares idx p Hin) as Hless.
        assert (Hle : List.length
                        (getAvailableMoves (assign squares idx (Some p))) = e)
          by lia.
        assert (Hd' : (d + 1 + Z.of_nat e <= 9)%Z) by lia.
        assert (Hd'' : (d + 1 + Z.of_nat e <= 10)%Z) by lia.
        destruct (IH _ _ _ _ _ Hle Hd' Hres) as (_ & Hl).
        pose proof (minimax_score_range _ _ _ _ _ _ _ Hle Hd'' Hres) as Hb.
        rewrite Hs. split; [exact Hb|exact Hl]. }
      destruct (mark_cases opp p) as [-> | ->].
      * (* the minimizing player [opp] moves *)
        destruct (firstBest_In _ _ _ _ (Hmin (fun E => other_neq opp (eq_sym E))))
          as [Hin Hbest].
        destruct (Forall2_In_r _ _ _ _ Hex Hin) as (ir & Hir & Hrr).
        destruct (Hchild ir r Hir Hrr) as [Hbr Hlr].
        split; [intros _; lia|].
        assert (Hnext : nextPlayer opp (other opp) opp = other opp).
        { unfold nextPlayer.
          destruct (Mark_eqb opp (other opp)) eqn:E; [|reflexivity].
          apply Mark_eqb_eq in E. symmetry in E. destruct (other_neq _ E). }
        rewrite Hnext in *.
        intros [|n].
        -- rewrite lossForcedWithin_0 by assumption. split; [discriminate|lia].
        -- rewrite lossForcedWithin_me by assumption. split.
           ++ intros Hall. apply Hlr in Hall; [lia|assumption].
           ++ intros Hs idx Hidx.
              destruct (Forall2_In_l _ _ _ _ Hex Hidx) as (m & Hm & Hrm).
              destruct (Hchild idx m Hidx Hrm) as [_ Hlm]. apply Hlm.
              specialize (Hbest m Hm). lia.
      * (* the maximizing player [other opp] moves *)
        destruct (firstBest_In _ _ _ _ (Hmax eq_refl)) as [Hin Hbest].
        destruct (Forall2_In_r _ _ _ _ Hex Hin) as (ir & Hir & Hrr).
        destruct (Hchild ir r Hir Hrr) as [Hbr Hlr].
        split; [intros _; lia|].
        assert (Hnext : nextPlayer (other opp) (other opp) opp = opp)
          by (unfold nextPlayer; rewrite Mark_eqb_refl; reflexivity).
        rewrite Hnext in *.
        intros [|n].
        -- rewrite lossForcedWithin_0 by assumption. split; [discriminate|lia].
        -- rewrite lossForcedWithin_opp by assumption. split.
           ++ intros (idx & Hidx & Hl).
              destruct (Forall2_In_l _ _ _ _ Hex Hidx) as (m & Hm & Hrm).
              destruct (Hchild idx m Hidx Hrm) as [_ Hlm]. apply Hlm in Hl.
              specialize (Hbest m Hm). lia.
           ++ intros Hs. exists ir. split; [assumption|]. apply Hlr. lia.
Qed.

(** The move returned by [chooseMove] on a 9-cell board where the game is
    not over, with the scores of all the moves, in the two readings of a
    score. *)
Lemma chooseMove_best (squares : board) (me : Mark) :
  List.length squares = 9 ->
  isOver squares = false ->
  exists i,
    chooseMove squares me (other me) = Some i
    /\ In i (getAvailableMoves squares)
    /\ forall n j,
         In j (getAvailableMoves squares) ->
         (lossForcedWithin me n (assign squares i (Some me)) (other me) = true ->
          lossForcedWithin me n (assign squares j (Some me)) (other me) = true)
         /\ (lossForcedWithin (other me) n (assign squares j (Some me)) (other me)
             = true ->
             lossForcedWithin (other me) n (assign squares i (Some me)) (other me)
             = true).
Proof.
  intros Hlen Hover. apply isOver_false in Hover. destruct Hover as [Hw Hne].
  destruct (minimax_nonterminal squares me me (other me) 0)
    as (moves & r & k & Hex & Hr & Hmax & _);
    [rewrite Hw; discriminate|rewrite Hw; discriminate|assumption|].
  destruct (firstBest_In _ _ _ _ (Hmax eq_refl)) as [Hin Hbest].
  unfold explored in Hex.
  assert (Hnext : nextPlayer me me (other me) = other me)
    by (unfold nextPlayer; rewrite Mark_eqb_refl; reflexivity).
  rewrite Hnext in Hex.
  pose proof (getAvailableMoves_length squares) as Hcount.
  assert (Hmove : forall j m,
             In j (getAvailableMoves squares) ->
             index m = Some j
             /\ (exists result,
                   minimax (assign squares j (Some me)) (other me) me (other me)
                     (0 + 1) = Some result
                   /\ score m = score result) ->
             (forall n,
                lossForcedWithin me n (assign squares j (Some me)) (other me)
                = true <-> (score m < 0 /\ score m <= 0 + 1 + Z.of_nat n - 10)%Z)
             /\ (forall n,
                   lossForcedWithin (other me) n (assign squares j (Some me))
                     (other me) = true <->
                   (0 < score m /\ 10 - (0 + 1 + Z.of_nat n) <= score m)%Z)).
  { intros j m Hj [_ (result & Hres & Hs)].
    pose proof (getAvailableMoves_assign squares j me Hj) as Hless.
    assert (Hd : (0 + 1 + Z.of_nat (List.length (getAvailableMoves
                                     (assign squares j (Some me)))) <= 9)%Z)
      by lia.
    destruct (minimax_score_loss _ _ _ _ _ _ eq_refl Hd Hres) as (_ & _ & Hl).
    assert (Hres' : minimax (assign squares j (Some me)) (other me)
                      (other (other me)) (other me) (0 + 1) = Some result)
      by (rewrite other_involutive; exact Hres).
    destruct (minimax_score_win _ _ _ _ _ _ eq_refl Hd Hres') as (_ & Hv).
    rewrite Hs. split; assumption. }
  destruct (Forall2_In_r _ _ _ _ Hex Hin) as (i & Hi & Hri).
  destruct (Hmove i r Hi Hri) as [Hlr Hvr].
  exists i. split; [unfold chooseMove; rewrite Hr; tauto|].
  split; [assumption|].
  intros n j Hj.
  destruct (Forall2_In_l _ _ _ _ Hex Hj) as (m & Hm & Hrm).
  destruct (Hmove j m Hj Hrm) as [Hlm Hvm].
  specialize (Hbest m Hm). split.
  - intros H. apply Hlr in H. apply Hlm. lia.
  - intros H. apply Hvm in H. apply Hvr. lia.
Qed.

(** X3. On a 9-cell board where the game is not over, the move [chooseMove]
    returns for [me] is never forced to lose sooner than another legal move:
    if after it the opponent can force its line within [n] plies, the
    opponent can do so after every legal move.  So when some legal move
    avoids a forced loss, the chosen move avoids it. *)
Theorem chooseMove_avoids_loss (squares : board) (me : Mark) :
  List.length squares = 9 ->
  isOver squares = false ->
  exists i,
    chooseMove squares me (other me) = Some i
    /\ (forall n j,
          In j (getAvailableMoves squares) ->
          lossForcedWithin me n (assign squares i (Some me)) (other me) = true ->
          lossForcedWithin me n (assign squares j (Some me)) (other me) = true)
    /\ (forall j,
          In j (getAvailableMoves squares) ->
          (forall n, lossForcedWithin me n (assign squares j (Some me)) (other me)
                     = false) ->
          forall n, lossForcedWithin me n (assign squares i (Some me)) (other me)
                    = false).
Proof.
  intros Hlen Hover.
  destruct (chooseMove_best squares me Hlen Hover) as (i & Hi & Hin & Hall).
  exists i. split; [assumption|]. split.
  - intros n j Hj. apply (Hall n j Hj).
  - intros j Hj Hsafe n.
    destruct (lossForcedWithin me n (assign squares i (Some me)) (other me))
      eqn:E; [|reflexivity].
    apply (Hall n j Hj) in E. rewrite Hsafe in E. discriminate.
Qed.

Lemma chooseMove_avoids_loss_witness :
  let squares := [Some X; Some X; None; None; Some O; None; None; None; None] in
  exists i,
    chooseMove squares O X = Some i
    /\ forall n, lossForcedWithin O n (assign squares i (Some O)) X = false.
Proof.
  cbv zeta.
  destruct (chooseMove_avoids_loss
              [Some X; Some X; None; None; Some O; None; None; None; None] O
              eq_refl eq_refl) as (i & Hi & _ & Hsafe).
  exists i. split; [exact Hi|].
  apply (Hsafe 2); [vm_compute; tauto|].
  intros n. cbn [other].
  destruct (lossForcedWithin O n
              (assign [Some X; Some X; None; None; Some O; None; None; None; None]
                 2 (Some O)) X) eqn:E; [|reflexivity].
  exfalso.
  assert (Hres : minimax
                   (assign [Some X; Some X; None; None; Some O; None; None; None; None]
                      2 (Some O)) X O (other O) (0 + 1)
                 = Some (mkResult (Some 6) 0)) by (vm_compute; reflexivity).
  assert (Hd : (0 + 1 + Z.of_nat 5 <= 9)%Z) by lia.
  assert (He : List.length
                 (getAvailableMoves
                    (assign [Some X; Some X; None; None; Some O; None; None; None; None]
                       2 (Some O))) = 5) by reflexivity.
  destruct (minimax_score_loss _ _ _ _ _ _ He Hd Hres) as (_ & _ & Hl).
  apply Hl in E. cbn [score] in E. lia.
Defined.

(** X4. On a 9-cell board where the game is not over, the move [chooseMove]
    returns for [me] forces a win as fast as any legal move does: if after
    some legal move [me] can force its line within [n] plies, it can do so
    after the chosen move.  In particular, when some legal move completes a
    line of [me], the chosen move completes one. *)
Theorem chooseMove_fastest_win (squares : board) (me : Mark) :
  List.length squares = 9 ->
  isOver squares = false ->
  exists i,
    chooseMove squares me (other me) = Some i
    /\ (forall n j,
          In j (getAvailableMoves squares) ->
          lossForcedWithin (other me) n (assign squares j (Some me)) (other me)
          = true ->
          lossForcedWithin (other me) n (assign squares i (Some me)) (other me)
          = true)
    /\ (forall j,
          In j (getAvailableMoves squares) ->
          calculateWinner (assign squares j (Some me)) = Some me ->
          calculateWinner (assign squares i (Some me)) = Some me).
Proof.
  intros Hlen Hover.
  destruct (chooseMove_best squares me Hlen Hover) as (i & Hi & Hin & Hall).
  exists i. split; [assumption|]. split.
  - intros n j Hj. apply (Hall n j Hj).
  - intros j Hj Hwin.
    assert (H0 : lossForcedWithin (other me) 0 (assign squares j (Some me))
                   (other me) = true).
    { apply lossForcedWithin_lost. rewrite other_involutive. assumption. }
    apply (Hall 0 j Hj) in H0. simpl in H0.
    rewrite other_involutive in H0.
    destruct (cell_eqb (calculateWinner (assign squares i (Some me))) (Some me))
      eqn:E.
    + apply cell_eqb_eq in E. assumption.
    + destruct (truthy (calculateWinner (assign squares i (Some me))));
        discriminate.
Qed.

Lemma chooseMove_fastest_win_witness :
  let squares := [Some O; Some O; None; Some X; Some X; None; Some X; None; None] in
  exists i,
    chooseMove squares O X = Some i
    /\ calculateWinner (assign squares i (Some O)) = Some O.
Proof.
  cbv zeta.
  destruct (chooseMove_fastest_win
              [Some O; Some O; None; Some X; Some X; None; Some X; None; None] O
              eq_refl eq_refl) as (i & Hi & _ & Hwin).
  exists i. split; [exact Hi|].
  apply (Hwin 2); [vm_compute; tauto|reflexivity].
Defined.

(** X5. The sign of the score is the outcome of the game under best play: on
    a board searched at a depth that, added to the number of empty cells,
    does not exceed 9, the score is negative exactly when the opponent of
    the maximizing player can force its line, positive exactly when the
    maximizing player can, and zero otherwise. *)
Theorem minimax_score_sign (squares : board) (p me : Mark) (depth : Z)
    (r : SearchResult) :
  (depth + Z.of_nat (List.length (getAvailableMoves squares)) <= 9)%Z ->
  minimax squares p me (other me) depth = Some r ->
  ((score r < 0)%Z <-> exists n, lossForcedWithin me n squares p = true)
  /\ ((0 < score r)%Z <-> exists n, lossForcedWithin (other me) n squares p = true)
  /\ (score r = 0%Z <->
      forall n, lossForcedWithin me n squares p = false
                /\ lossForcedWithin (other me) n squares p = false).
Proof.
  intros Hd Hr.
  destruct (minimax_score_loss _ _ _ _ _ _ eq_refl Hd Hr) as (Hb & _ & Hl).
  assert (Hr' : minimax squares p (other (other me)) (other me) depth = Some r)
    by (rewrite other_involutive; exact Hr).
  destruct (minimax_score_win _ _ _ _ _ _ eq_refl Hd Hr') as (_ & Hv).
  assert (Hneg : (score r < 0)%Z <-> exists n, lossForcedWithin me n squares p = true).
  { split.
    - intros Hs. exists (Z.to_nat (score r + 10 - depth)). apply Hl. lia.
    - intros [n Hn]. apply Hl in Hn. lia. }
  assert (Hpos : (0 < score r)%Z <->
                 exists n, lossForcedWithin (other me) n squares p = true).
  { split.
    - intros Hs. exists (Z.to_nat (10 - depth - score r)). apply Hv. lia.
    - intros [n Hn]. apply Hv in Hn. lia. }
  split; [exact Hneg|]. split; [exact Hpos|]. split.
  - intros Hz n. split.
    + destruct (lossForcedWithin me n squares p) eqn:E; [|reflexivity].
      assert (score r < 0)%Z by (apply Hneg; eauto). lia.
    + destruct (lossForcedWithin (other me) n squares p) eqn:E; [|reflexivity].
      assert (0 < score r)%Z by (apply Hpos; eauto). lia.
  - intros Hnone.
    destruct (Z.lt_trichotomy (score r) 0) as [Hs|[Hs|Hs]]; [|assumption|].
    + apply Hneg in Hs. destruct Hs as [n Hn].
      destruct (Hnone n) as [E _]. congruence.
    + apply Hpos in Hs. destruct Hs as [n Hn].
      destruct (Hnone n) as [_ E]. congruence.
Qed.

Lemma minimax_score_sign_witness :
  let squares := [Some X; Some O; None; None; Some X; None; None; None; None] in
  exists n, lossForcedWithin O n squares O = true.
Proof.
  cbv zeta.
  assert (Hres : minimax [Some X; Some O; None; None; Some X; None; None; None; None]
                   O O (other O) 0 = Some (mkResult (Some 8) (-6)))
    by (vm_compute; reflexivity).
  assert (Hd : (0 + Z.of_nat (List.length
                   (getAvailableMoves
                      [Some X; Some O; None; None; Some X; None; None; None; None]))
                <= 9)%Z) by (vm_compute; discriminate).
  apply (minimax_score_sign _ _ _ _ _ Hd Hres). cbn [score]. lia.
Defined.

(** ** Exchanging the maximizing and the minimizing player *)

Lemma ltb_opp (a b : Z) : (- a <? - b)%Z = (b <? a)%Z.
Proof.
  destruct (Z.ltb_spec (- a) (- b)), (Z.ltb_spec b a); (reflexivity || lia).
Qed.

Lemma minimize_negate (moves : list SearchResult) :
  forall (b : ext) (best : SearchResult),
    minimize (map negate moves) (negate_ext b) (negate best)
    = negate (maximize moves b best).
Proof.
  induction moves as [|m moves IH]; intros b best; simpl; [reflexivity|].
  assert (E : lt_ext (- score m) (negate_ext b) = gt_ext (score m) b)
    by (destruct b; simpl; auto using ltb_opp).
  rewrite E. destruct (gt_ext (score m) b); [|apply IH].
  apply (IH (Fin (score m)) m).
Qed.

Lemma maximize_negate (moves : list SearchResult) :
  forall (b : ext) (best : SearchResult),
    maximize (map negate moves) (negate_ext b) (negate best)
    = negate (minimize moves b best).
Proof.
  induction moves as [|m moves IH]; intros b best; simpl; [reflexivity|].
  assert (E : gt_ext (- score m) (negate_ext b) = lt_ext (score m) b)
    by (destruct b; simpl; auto using ltb_opp).
  rewrite E. destruct (lt_ext (score m) b); [|apply IH].
  apply (IH (Fin (score m)) m).
Qed.

Lemma select_negate (p ai hu : Mark) (moves : list SearchResult) :
  ai <> hu ->
  select p hu (map negate moves) = negate (select p ai moves).
Proof.
  intros Hdiff. unfold select.
  assert (Hhd : hd (mkResult None 0) (map negate moves)
                = negate (hd (mkResult None 0) moves))
    by (destruct moves; reflexivity).
  rewrite Hhd.
  destruct (Mark_eqb p ai) eqn:Ea.
  - apply Mark_eqb_eq in Ea. subst p.
    rewrite (proj2 (Mark_eqb_neq ai hu) Hdiff).
    apply (minimize_negate moves NegInf).
  - apply Mark_eqb_neq in Ea.
    assert (p = hu) by (destruct p, ai, hu; congruence). subst p.
    rewrite Mark_eqb_refl. apply (maximize_negate moves PosInf).
Qed.

Lemma collect_negate (l : list (option SearchResult)) :
  collect (map (option_map negate) l) = option_map (map negate) (collect l).
Proof.
  induction l as [|[r|] l IH]; simpl; [reflexivity| |reflexivity].
  rewrite IH. destruct (collect l); reflexivity.
Qed.

Lemma nextPlayer_exchange (p ai hu : Mark) :
  ai <> hu -> nextPlayer p hu ai = nextPlayer p ai hu.
Proof. intros H. destruct p, ai, hu; try reflexivity; congruence. Qed.

Lemma minimax_fuel_exchange (fuel : nat) :
  forall (squares : board) (p ai hu : Mark) (d : Z),
    ai <> hu ->
    minimax_fuel fuel squares p hu ai d
    = option_map negate (minimax_fuel fuel squares p ai hu d).
Proof.
  induction fuel as [|fuel IH]; intros squares p ai hu d Hdiff; [reflexivity|].
  rewrite !minimax_fuel_S.
  destruct (calculateWinner squares) as [w|] eqn:Ew.
  - assert (Hw : w = ai \/ w = hu) by (destruct w, ai, hu; auto; congruence).
    assert (Hhu : Mark_eqb hu ai = false)
      by (apply Mark_eqb_neq; congruence).
    destruct Hw as [-> | ->]; cbn [cell_eqb];
      rewrite ?Mark_eqb_refl, ?Hhu, ?(proj2 (Mark_eqb_neq ai hu) Hdiff);
      cbn [option_map]; unfold negate; cbn [score index]; do 2 f_equal; lia.
  - cbn [cell_eqb].
    destruct (getAvailableMoves squares) as [|i0 rest] eqn:Ea; [reflexivity|].
    rewrite <- Ea.
    rewrite (map_ext
               (fun idx =>
                  match
                    minimax_fuel fuel (assign squares idx (Some p))
                      (nextPlayer p hu ai) hu ai (d + 1)
                  with
                  | Some result => Some (mkResult (Some idx) (score result))
                  | None => None
                  end)
               (fun idx =>
                  option_map negate
                    match
                      minimax_fuel fuel (assign squares idx (Some p))
                        (nextPlayer p ai hu) ai hu (d + 1)
                    with
                    | Some result => Some (mkResult (Some idx) (score result))
                    | None => None
                    end)).
    + rewrite <- map_map, collect_negate.
      match goal with
      | |- context [collect ?l] => destruct (collect l) as [moves|]
      end; cbn [option_map]; [|reflexivity].
      rewrite (select_negate p ai hu) by assumption. reflexivity.
    + intros idx. rewrite nextPlayer_exchange, IH by assumption.
      destruct (minimax_fuel fuel (assign squares idx (Some p))
                  (nextPlayer p ai hu) ai hu (d + 1)); reflexivity.
Qed.

(** X6. [minimax] is zero-sum: for distinct marks, calling it with the roles
    of the maximizing and the minimizing player exchanged returns the same
    move index with the opposite score. *)
Theorem minimax_exchange (squares : board) (currentPlayer aiPlayer humanPlayer : Mark)
    (depth : Z) (r : SearchResult) :
  aiPlayer <> humanPlayer ->
  minimax squares currentPlayer aiPlayer humanPlayer depth = Some r ->
  minimax squares currentPlayer humanPlayer aiPlayer depth
  = Some (mkResult (index r) (- score r)).
Proof.
  intros Hdiff Hr. unfold minimax in *.
  rewrite minimax_fuel_exchange, Hr by assumption. reflexivity.
Qed.

Lemma minimax_exchange_witness :
  minimax [Some X; Some O; None; None; Some X; None; None; None; None] O X O 0
  = Some (mkResult (Some 8) 6).
Proof.
  apply (minimax_exchange
           [Some X; Some O; None; None; Some X; None; None; None; None]
           O O X 0 (mkResult (Some 8) (-6))).
  - discriminate.
  - vm_compute. reflexivity.
Defined.

(** ** Legal moves after a move *)

Lemma filter_twice {A : Type} (f g : A -> bool) (l : list A) :
  filter f (filter g l) = filter (fun x => g x && f x) l.
Proof.
  induction l as [|x l IH]; simpl; [reflexivity|].
  destruct (g x); simpl; [destruct (f x)|]; rewrite ?IH; reflexivity.
Qed.

(** X7. Writing a mark to a cell inside the board removes that index, and
    nothing else, from the legal moves, which keep their order. *)
Theorem getAvailableMoves_after_move (squares : board) (i : nat) (m : Mark) :
  i < List.length squares ->
  getAvailableMoves (assign squares i (Some m))
  = filter (fun j => negb (j =? i)) (getAvailableMoves squares).
Proof.
  intros Hi. unfold getAvailableMoves.
  rewrite length_assign, filter_twice by assumption.
  apply filter_ext. intros j.
  destruct (Nat.eqb_spec j i) as [-> | Hne].
  - rewrite get_assign_same. simpl. rewrite andb_false_r. reflexivity.
  - rewrite get_assign_other by congruence. rewrite andb_true_r. reflexivity.
Qed.

Lemma getAvailableMoves_after_move_witness :
  getAvailableMoves
    (assign [Some X; Some X; None; None; Some O; None; None; None; None] 5 (Some O))
  = [2; 3; 6; 7; 8].
Proof.
  rewrite (getAvailableMoves_after_move
             [Some X; Some X; None; None; Some O; None; None; None; None] 5 O)
    by (simpl; lia).
  reflexivity.
Defined.

(** * Further properties of the controller *)

Lemma statusEffect_xIsNext (st : App.State) :
  App.xIsNext (App.statusEffect st) = App.xIsNext st.
Proof.
  unfold App.statusEffect.
  destruct (App.winner st); [reflexivity|].
  destruct (App.isDraw st); reflexivity.
Qed.

Lemma statusEffect_mode (st : App.State) :
  App.mode (App.statusEffect st) = App.mode st.
Proof.
  unfold App.statusEffect.
  destruct (App.winner st); [reflexivity|].
  destruct (App.isDraw st); reflexivity.
Qed.

(** The status effect sets [gameOver] to whether the game is over on the
    board. *)
Lemma statusEffect_gameOver (st : App.State) :
  App.gameOver (App.statusEffect st) = isOver (App.squares st).
Proof.
  unfold App.statusEffect, App.isDraw, App.winner, isOver.
  destruct (calculateWinner (App.squares st)); [reflexivity|]. simpl.
  destruct (List.length (getAvailableMoves (App.squares st)) =? 0); reflexivity.
Qed.

(** What the AI effect does: nothing, or the engine's move for O on a legal
    cell, the turn passing to X. *)
Lemma aiMove_cases (st : App.State) :
  App.aiMove st = st
  \/ (App.mode st = App.AI /\ App.gameOver st = false /\ App.xIsNext st = false
      /\ exists aiIndex,
           chooseMove (App.squares st) O X = Some aiIndex
           /\ In aiIndex (getAvailableMoves (App.squares st))
           /\ App.aiMove st
              = App.mkState (assign (App.squares st) aiIndex (Some O)) true
                  (App.mode st) (App.scores st) (App.gameOver st)
                  (App.statusBanner st)).
Proof.
  unfold App.aiMove.
  destruct (App.mode st) eqn:Em; simpl; [|auto].
  destruct (App.gameOver st) eqn:Eg; simpl; [auto|].
  destruct (App.xIsNext st) eqn:Ex; simpl; [auto|].
  unfold App.aiPlayer, App.humanPlayer.
  destruct (chooseMove (App.squares st) O X) as [aiIndex|] eqn:Ec; [|auto].
  assert (Hin : In aiIndex (getAvailableMoves (App.squares st))).
  { unfold chooseMove in Ec.
    destruct (minimax (App.squares st) O O X 0) as [best|] eqn:Eb; [|discriminate].
    exact (minimax_index_legal _ _ _ _ _ _ _ Eb Ec). }
  pose proof Hin as Hin'. apply getAvailableMoves_In in Hin'.
  destruct Hin' as [_ Hg]. rewrite Hg. simpl.
  right. repeat split; try reflexivity. exists aiIndex. auto.
Qed.

(** What a click does: nothing, or the current player's mark on the clicked
    cell, which was empty, the turn passing to the other player. *)
Lemma handleSquareClick_cases (index : nat) (st : App.State) :
  App.handleSquareClick index st = st
  \/ (App.gameOver st = false
      /\ get (App.squares st) index = None
      /\ (App.mode st = App.AI -> App.xIsNext st = true)
      /\ App.handleSquareClick index st
         = App.mkState
             (assign (App.squares st) index (Some (App.currentPlayer st)))
             (negb (App.xIsNext st)) (App.mode st) (App.scores st)
             (App.gameOver st) (App.statusBanner st)).
Proof.
  unfold App.handleSquareClick.
  destruct (App.gameOver st); simpl; [auto|].
  destruct (get (App.squares st) index) eqn:Eg; simpl; [auto|].
  destruct (App.mode st), (App.xIsNext st); simpl; auto;
    right; repeat split; auto; discriminate.
Qed.

(** ** Whose turn it is *)

Lemma countMark_assign (squares : board) (i : nat) (m m' : Mark) :
  get squares i = None ->
  countMark m' (assign squares i (Some m))
  = countMark m' squares + (if Mark_eqb m m' then 1 else 0).
Proof.
  unfold countMark, get. revert squares.
  induction i as [|i IH]; intros [|c rest] Hg; simpl in *.
  - destruct (Mark_eqb m m'); reflexivity.
  - subst c. simpl. destruct (Mark_eqb m m'); simpl; lia.
  - rewrite (IH []) by (destruct i; reflexivity). reflexivity.
  - destruct (cell_eqb c (Some m')); simpl; rewrite (IH rest Hg); lia.
Qed.

Lemma step_turnAgrees (e : App.Event) (st : App.State) :
  turnAgrees st -> turnAgrees (App.step e st).
Proof.
  unfold turnAgrees. intros H. destruct e as [index| | | | |newMode]; simpl.
  - destruct (handleSquareClick_cases index st) as [->|(_ & Hg & _ & ->)];
      [assumption|].
    simpl. rewrite !(countMark_assign _ _ _ _ Hg). unfold App.currentPlayer.
    destruct (App.xIsNext st); simpl in *; lia.
  - destruct (aiMove_cases st)
      as [->|(_ & _ & Hx & aiIndex & _ & Hin & ->)]; [assumption|].
    apply getAvailableMoves_In in Hin. destruct Hin as [_ Hg].
    simpl. rewrite !(countMark_assign _ _ _ _ Hg). rewrite Hx in H.
    simpl. lia.
  - rewrite statusEffect_squares, statusEffect_xIsNext. assumption.
  - reflexivity.
  - reflexivity.
  - reflexivity.
Qed.

Lemma run_turnAgrees (es : list App.Event) :
  forall st, turnAgrees st -> turnAgrees (App.run es st).
Proof.
  induction es as [|e es IH]; intros st Hst; simpl; [assumption|].
  apply IH, step_turnAgrees, Hst.
Qed.

(** X8. Whatever events occur, in either mode, the marks on the board and
    the turn agree: there are as many X as O when X is next, and one X more
    when O is next. *)
Theorem turn_matches_marks (es : list App.Event) :
  let st := App.run es App.init in
  countMark X (App.squares st)
  = countMark O (App.squares st) + (if App.xIsNext st then 0 else 1).
Proof. exact (run_turnAgrees es App.init eq_refl). Qed.

(** ** The size of the board *)

Lemma step_length (e : App.Event) (st : App.State) :
  fromPage e = true ->
  List.length (App.squares st) = 9 ->
  List.length (App.squares (App.step e st)) = 9.
Proof.
  intros He Hlen. destruct e as [index| | | | |newMode]; simpl in *.
  - destruct (handleSquareClick_cases index st) as [->|(_ & _ & _ & ->)];
      [assumption|].
    simpl. apply Nat.ltb_lt in He. rewrite length_assign; lia.
  - destruct (aiMove_cases st)
      as [->|(_ & _ & _ & aiIndex & _ & Hin & ->)]; [assumption|].
    apply getAvailableMoves_In in Hin. destruct Hin as [Hlt _].
    simpl. rewrite length_assign; assumption.
  - rewrite statusEffect_squares. assumption.
  - reflexivity.
  - reflexivity.
  - reflexivity.
Qed.

(** X9. As long as every click carries the index of one of the nine squares,
    the board keeps exactly 9 cells whatever events occur. *)
Theorem board_keeps_nine_cells (es : list App.Event) :
  forallb fromPage es = true ->
  List.length (App.squares (App.run es App.init)) = 9.
Proof.
  assert (Hinit : List.length (App.squares App.init) = 9) by reflexivity.
  revert Hinit. generalize App.init.
  induction es as [|e es IH]; intros st Hst Hes; simpl in *; [assumption|].
  apply andb_true_iff in Hes. destruct Hes as [He Hes].
  apply IH; [|assumption]. apply step_length; assumption.
Qed.

Lemma board_keeps_nine_cells_witness :
  List.length
    (App.squares
       (App.run [App.Click 4; App.StatusEffect; App.AiTimer; App.Click 8]
          App.init)) = 9.
Proof.
  apply (board_keeps_nine_cells
           [App.Click 4; App.StatusEffect; App.AiTimer; App.Click 8]).
  reflexivity.
Defined.

(** ** The AI effect *)

(** X10. On a board where the game is over (a line is complete or no cell is
    empty) the AI effect changes nothing, whatever the [gameOver] flag, the
    mode and the turn are. *)
Theorem aiMove_idle_when_over (st : App.State) :
  isOver (App.squares st) = true -> App.aiMove st = st.
Proof.
  intros Hover.
  destruct (aiMove_cases st) as [H|(_ & _ & _ & aiIndex & Hc & _)];
    [assumption|].
  rewrite chooseMove_over in Hc by (assumption || discriminate).
  discriminate.
Qed.

Lemma aiMove_idle_when_over_witness :
  let st :=
    App.mkState [Some X; Some X; Some X; Some O; Some O; None; None; None; None]
      false App.AI (App.mkScores 0 0 0) false EmptyString in
  App.aiMove st = st.
Proof.
  cbv zeta.
  apply (aiMove_idle_when_over
           (App.mkState
              [Some X; Some X; Some X; Some O; Some O; None; None; None; None]
              false App.AI (App.mkScores 0 0 0) false EmptyString)).
  reflexivity.
Defined.

(** X11. In AI mode, when it is O's turn and the game is not over, the AI
    effect writes O to the empty cell the engine chooses and passes the turn
    to X; the mode, the scores, the flag and the banner stay as they are. *)
Theorem aiMove_plays (st : App.State) :
  App.mode st = App.AI ->
  App.gameOver st = false ->
  App.xIsNext st = false ->
  isOver (App.squares st) = false ->
  exists aiIndex,
    chooseMove (App.squares st) O X = Some aiIndex
    /\ get (App.squares st) aiIndex = None
    /\ aiIndex < List.length (App.squares st)
    /\ App.aiMove st
       = App.mkState (assign (App.squares st) aiIndex (Some O)) true
           (App.mode st) (App.scores st) (App.gameOver st)
           (App.statusBanner st).
Proof.
  intros Hm Hg Hx Hover.
  destruct (chooseMove_some (App.squares st) O X Hover) as [i Hi].
  destruct (aiMove_cases st) as [H|(_ & _ & _ & aiIndex & Hc & Hin & H)].
  - exfalso. unfold App.aiMove in H.
    rewrite Hm, Hg, Hx in H. simpl in H.
    unfold App.aiPlayer, App.humanPlayer in H. rewrite Hi in H.
    assert (Hin : In i (getAvailableMoves (App.squares st))).
    { unfold chooseMove in Hi.
      destruct (minimax (App.squares st) O O X 0) as [best|] eqn:Eb;
        [|discriminate].
      exact (minimax_index_legal _ _ _ _ _ _ _ Eb Hi). }
    apply getAvailableMoves_In in Hin. destruct Hin as [_ Hcell].
    rewrite Hcell in H. simpl in H.
    apply (f_equal App.xIsNext) in H. simpl in H. congruence.
  - exists aiIndex. apply getAvailableMoves_In in Hin. tauto.
Qed.

Lemma aiMove_plays_witness :
  let st :=
    App.mkState [Some X; Some X; None; None; Some O; None; None; None; None]
      false App.AI (App.mkScores 0 0 0) false EmptyString in
  exists aiIndex,
    chooseMove (App.squares st) O X = Some aiIndex
    /\ get (App.squares st) aiIndex = None
    /\ aiIndex < List.length (App.squares st)
    /\ App.aiMove st
       = App.mkState (assign (App.squares st) aiIndex (Some O)) true
           (App.mode st) (App.scores st) (App.gameOver st)
           (App.statusBanner st).
Proof.
  cbv zeta.
  apply (aiMove_plays
           (App.mkState
              [Some X; Some X; None; None; Some O; None; None; None; None]
              false App.AI (App.mkScores 0 0 0) false EmptyString));
    reflexivity.
Defined.

(** ** After the end of a game *)

(** X12. Once the status effect has run on a board where the game is over,
    clicks and the AI effect change nothing: the state stays as it is until
    [startNewRound], [resetGame] or [changeMode]. *)
Theorem finished_game_is_frozen (st : App.State) :
  isOver (App.squares st) = true ->
  (forall index,
     App.handleSquareClick index (App.statusEffect st) = App.statusEffect st)
  /\ App.aiMove (App.statusEffect st) = App.statusEffect st.
Proof.
  intros Hover.
  pose proof (statusEffect_gameOver st) as Hg. rewrite Hover in Hg. split.
  - intros index. unfold App.handleSquareClick. rewrite Hg. reflexivity.
  - unfold App.aiMove. rewrite Hg. simpl. rewrite andb_false_r. reflexivity.
Qed.

Lemma finished_game_is_frozen_witness :
  let st :=
    App.mkState [Some X; Some X; Some X; Some O; Some O; None; None; None; None]
      false App.HUMAN (App.mkScores 0 0 0) false EmptyString in
  App.handleSquareClick 5 (App.statusEffect st) = App.statusEffect st.
Proof.
  cbv zeta.
  apply (finished_game_is_frozen
           (App.mkState
              [Some X; Some X; Some X; Some O; Some O; None; None; None; None]
              false App.HUMAN (App.mkScores 0 0 0) false EmptyString)).
  reflexivity.
Defined.

(** ** Games against the computer *)

Lemma reached_playout (cx co : controller) (b0 : board) (p0 : Mark)
    (b : board) (p : Mark) :
  reached cx co b0 p0 b p ->
  forall final, playout cx co b p final -> playout cx co b0 p0 final.
Proof.
  induction 1 as [|b p b' Hr IH Hno Hm]; intros final Hp; [assumption|].
  apply IH. eapply playout_move; eassumption.
Qed.

Lemma move_length (c : controller) (b : board) (p : Mark) (b' : board) :
  move c b p b' -> List.length b' = List.length b.
Proof.
  intros Hm. apply move_engine_free in Hm.
  destruct Hm as [i Hc _|i _ Hin]; [discriminate|].
  apply getAvailableMoves_In in Hin. apply length_assign. tauto.
Qed.

Lemma reached_length (cx co : controller) (b0 : board) (p0 : Mark)
    (b : board) (p : Mark) :
  reached cx co b0 p0 b p -> List.length b = List.length b0.
Proof.
  induction 1 as [|b p b' Hr IH Hno Hm]; [reflexivity|].
  rewrite (move_length _ _ _ _ Hm). assumption.
Qed.

(** No board met in a game between any X and the engine playing O holds a
    completed line of X. *)
Lemma reached_safe (b : board) (p : Mark) :
  reached Free Engine emptyBoard X b p -> calculateWinner b <> Some X.
Proof.
  intros Hr. destruct (isOver b) eqn:Hover.
  - apply (neverLoses_sound Free Engine O 10 emptyBoard X b);
      [apply neverLoses_engine_O|].
    apply (reached_playout _ _ _ _ _ _ Hr). apply playout_over. assumption.
  - apply isOver_false in Hover. destruct Hover as [Hw _]. congruence.
Qed.

Lemma statusEffect_currentPlayer (st : App.State) :
  App.currentPlayer (App.statusEffect st) = App.currentPlayer st.
Proof. unfold App.currentPlayer. rewrite statusEffect_xIsNext. reflexivity. Qed.

Lemma step_aiRound (e : App.Event) (st : App.State) :
  aiRound st ->
  fromPage e = true ->
  keepsAI e = true ->
  App.mode (App.step e st) = App.AI
  /\ reached Free Engine emptyBoard X (App.squares (App.step e st))
       (App.currentPlayer (App.step e st)).
Proof.
  intros (Hmode & Hflag & Hr) Hpage Hkeep.
  destruct e as [index| | | | |newMode]; simpl in *.
  - destruct (handleSquareClick_cases index st)
      as [->|(Hg & Hcell & Hturn & ->)]; [auto|].
    simpl. split; [assumption|].
    specialize (Hturn Hmode). unfold App.currentPlayer in *.
    rewrite Hturn in *. simpl.
    apply (reached_move Free Engine emptyBoard X (App.squares st) X);
      [assumption|congruence|].
    apply move_free; [reflexivity|]. apply getAvailableMoves_In.
    split; [|assumption].
    rewrite (reached_length _ _ _ _ _ _ Hr). apply Nat.ltb_lt in Hpage.
    exact Hpage.
  - destruct (aiMove_cases st)
      as [->|(_ & Hg & Hx & aiIndex & Hc & _ & ->)]; [auto|].
    simpl. split; [assumption|].
    unfold App.currentPlayer in *. rewrite Hx in *. simpl.
    apply (reached_move Free Engine emptyBoard X (App.squares st) O);
      [assumption|congruence|].
    apply move_engine; [reflexivity|exact Hc].
  - rewrite statusEffect_mode, statusEffect_squares, statusEffect_currentPlayer.
    auto.
  - split; [assumption|apply reached_start].
  - split; [reflexivity|apply reached_start].
  - destruct newMode; [|discriminate].
    split; [reflexivity|apply reached_start].
Qed.

Lemma settle_aiRound (e : App.Event) (st : App.State) :
  aiRound st ->
  fromPage e = true ->
  keepsAI e = true ->
  aiRound (App.statusEffect (App.step e st)).
Proof.
  intros Hst Hpage Hkeep.
  destruct (step_aiRound e st Hst Hpage Hkeep) as [Hmode Hr].
  unfold aiRound.
  rewrite statusEffect_mode, statusEffect_gameOver, statusEffect_squares,
    statusEffect_currentPlayer.
  auto.
Qed.

Lemma run_aiRound (es : list App.Event) :
  forall st,
    aiRound st ->
    forallb fromPage es = true ->
    forallb keepsAI es = true ->
    aiRound (App.run (withEffects es) st).
Proof.
  induction es as [|e es IH]; intros st Hst Hpage Hkeep; simpl in *;
    [assumption|].
  apply andb_true_iff in Hpage, Hkeep.
  destruct Hpage as [Hp Hpage], Hkeep as [Hk Hkeep].
  apply IH; [|assumption|assumption].
  apply settle_aiRound; assumption.
Qed.

Lemma init_aiRound : aiRound App.init.
Proof.
  unfold aiRound. split; [reflexivity|]. split; [reflexivity|].
  apply reached_start.
Qed.

(** X13. A game against the computer, as the page plays it: starting from
    the initial state, the status effect running after every event, clicks
    coming from the nine squares and the mode never changed to 2-player.
    Whatever the person does, X never has a completed line; and when the
    round is over, O has one or the board is full without a winner. *)
Theorem ai_mode_human_never_wins (es : list App.Event) :
  forallb fromPage es = true ->
  forallb keepsAI es = true ->
  let st := App.run (withEffects es) App.init in
  App.mode st = App.AI
  /\ calculateWinner (App.squares st) <> Some X
  /\ (App.gameOver st = true ->
      calculateWinner (App.squares st) = Some O
      \/ (calculateWinner (App.squares st) = None
          /\ getAvailableMoves (App.squares st) = [])).
Proof.
  intros Hpage Hkeep st.
  destruct (run_aiRound es App.init init_aiRound Hpage Hkeep)
    as (Hmode & Hflag & Hr).
  fold st in Hmode, Hflag, Hr.
  pose proof (reached_safe _ _ Hr) as Hsafe.
  split; [assumption|]. split; [assumption|].
  intros Hover. rewrite Hflag in Hover. apply isOver_true in Hover.
  destruct Hover as [[m Hm]|Hdraw]; [|auto].
  left. rewrite Hm in *. destruct m; congruence.
Qed.

Lemma ai_mode_human_never_wins_witness :
  let st :=
    App.run
      (withEffects [App.Click 0; App.AiTimer; App.Click 8; App.AiTimer;
                    App.Click 2; App.AiTimer])
      App.init in
  App.mode st = App.AI /\ calculateWinner (App.squares st) <> Some X.
Proof.
  cbv zeta.
  destruct (ai_mode_human_never_wins
              [App.Click 0; App.AiTimer; App.Click 8; App.AiTimer;
               App.Click 2; App.AiTimer] eq_refl eq_refl)
    as (Hm & Hs & _).
  split; assumption.
Defined.

(** * The board component *)

(** X14. [Board] draws three rows of three squares: the square at row [r],
    column [c] shows cell [3 * r + c] of the board and on click reports that
    index, so the indices reported are 0 to 8, each once.  The rows, columns
    and diagonals of the drawn grid are exactly the lines, and in the same
    order, that [calculateWinner] checks. *)
Theorem board_draws_the_lines (squares : board) :
  (forall r c,
     r < 3 -> c < 3 ->
     exists sq,
       BoardView.at_ (BoardView.render squares) r c = Some sq
       /\ BoardView.onClick sq = 3 * r + c
       /\ BoardView.value sq = get squares (3 * r + c))
  /\ map BoardView.onClick (concat (BoardView.render squares)) = seq 0 9
  /\ BoardView.drawnLines (BoardView.render squares) = map Some lines.
Proof.
  split; [|split; reflexivity].
  intros r c Hr Hc.
  destruct r as [|[|[|r]]]; [| | |lia];
    (destruct c as [|[|[|c]]]; [| | |lia]);
    eexists; (split; [reflexivity|split; reflexivity]).
Qed.

Lemma board_draws_the_lines_witness :
  exists sq,
    BoardView.at_
      (BoardView.render
         [Some X; Some X; None; None; Some O; None; None; None; None]) 1 1
    = Some sq
    /\ BoardView.onClick sq = 3 * 1 + 1
    /\ BoardView.value sq
       = get [Some X; Some X; None; None; Some O; None; None; None; None]
           (3 * 1 + 1).
Proof.
  destruct (board_draws_the_lines
              [Some X; Some X; None; None; Some O; None; None; None; None])
    as (H & _).
  apply (H 1 1); lia.
Defined.

(** ** A line takes three marks *)

Lemma countMark_clear (squares : board) (i : nat) (m : Mark) :
  get squares i = Some m ->
  countMark m squares = S (countMark m (assign squares i None)).
Proof.
  unfold countMark, get. revert squares.
  induction i as [|i IH]; intros [|c rest] Hg; simpl in *; try discriminate.
  - subst c. simpl. rewrite Mark_eqb_refl. reflexivity.
  - destruct (cell_eqb c (Some m)); simpl; rewrite (IH rest Hg); reflexivity.
Qed.

Lemma lines_distinct (l : nat * nat * nat) :
  In l lines ->
  fst (fst l) <> snd (fst l) /\ fst (fst l) <> snd l /\ snd (fst l) <> snd l.
Proof.
  intros Hin. simpl in Hin.
  repeat (destruct Hin as [<-|Hin]; [simpl; repeat split; discriminate|]).
  destruct Hin.
Qed.

Lemma lineHolds_count (squares : board) (l : nat * nat * nat) (m : Mark) :
  In l lines -> lineHolds squares l m -> 3 <= countMark m squares.
Proof.
  intros Hin (Ha & Hb & Hc).
  destruct (lines_distinct l Hin) as (Hab & Hac & Hbc).
  rewrite (countMark_clear _ _ _ Ha).
  rewrite <- (get_assign_other squares (fst (fst l)) _ None Hab) in Hb.
  rewrite <- (get_assign_other squares (fst (fst l)) _ None Hac) in Hc.
  rewrite (countMark_clear _ _ _ Hb).
  rewrite <- (get_assign_other _ (snd (fst l)) _ None Hbc) in Hc.
  rewrite (countMark_clear _ _ _ Hc).
  lia.
Qed.

(** X15. [calculateWinner] returns a mark only if the board holds at least
    three cells with that mark. *)
Theorem winner_has_three_marks (squares : board) (m : Mark) :
  calculateWinner squares = Some m -> 3 <= countMark m squares.
Proof.
  intros Hw. destruct (calculateWinner_some _ _ Hw) as (l & Hin & Hl).
  exact (lineHolds_count _ _ _ Hin Hl).
Qed.

Lemma winner_has_three_marks_witness :
  3 <= countMark X [Some X; Some X; Some X; Some O; Some O; None; None; None; None].
Proof.
  apply (winner_has_three_marks
           [Some X; Some X; Some X; Some O; Some O; None; None; None; None] X).
  reflexivity.
Defined.

(** X16. Whatever events occur, in either mode, a completed line appears
    only once five marks are on the board: three of the winner's and at
    least two of the other player's. *)
Theorem no_winner_before_five_marks (es : list App.Event) (m : Mark) :
  let st := App.run es App.init in
  calculateWinner (App.squares st) = Some m ->
  3 <= countMark m (App.squares st)
  /\ 2 <= countMark (other m) (App.squares st)
  /\ 5 <= countMark X (App.squares st) + countMark O (App.squares st).
Proof.
  intros st Hw.
  pose proof (run_turnAgrees es App.init eq_refl) as Hturn.
  fold st in Hturn. unfold turnAgrees in Hturn.
  destruct (calculateWinner_some _ _ Hw) as (l & Hin & Hl).
  pose proof (lineHolds_count _ _ _ Hin Hl) as H3.
  destruct m, (App.xIsNext st); simpl in *; lia.
Qed.

Lemma no_winner_before_five_marks_witness :
  let st :=
    App.run [App.ChangeMode App.HUMAN; App.Click 0; App.Click 3; App.Click 1;
             App.Click 4; App.Click 2] App.init in
  calculateWinner (App.squares st) = Some X
  /\ 5 <= countMark X (App.squares st) + countMark O (App.squares st).
Proof.
  cbv zeta. split; [reflexivity|].
  apply (no_winner_before_five_marks
           [App.ChangeMode App.HUMAN; App.Click 0; App.Click 3; App.Click 1;
            App.Click 4; App.Click 2] X).
  reflexivity.
Defined.
